(** * Ragged arrays (datashader/datatypes.py): a verification development

    The development embeds the [RaggedArray] extension array of
    [datashader/datatypes.py] and settles the properties stated for it.

    Modelling conventions.
    - A one-dimensional numpy array is the list of its elements together
      with its dtype.  The values buffer [flat_array] is an [int64] or a
      [float64] array, the two dtypes numpy gives to Python numbers; other
      dtypes of values are outside the model.  A value is a number or the
      float nan; numbers are written as integers, no operation of the class
      computes with them.
    - What numpy does with a value when it converts it to the other dtype is
      a parameter ([np_astype]); a value written to a buffer of its own
      dtype is written unchanged.
    - The offsets buffer [start_indices] holds unsigned integers of a width
      of 8, 16, 32 or 64 bits; sums computed in that width wrap around.
      An offset is written as a [nat].
    - A source item of a sequence is a 1-D array, the float [nan] or [None].
    - Python exceptions are values of [exn]; a call that may raise returns a
      [result].
    - Buffer identity (which numpy object a container holds) is modelled in
      the second part of the file, by a heap of buffers. *)

From stdpp Require Import base numbers option list sorting.

Set Default Proof Using "Type".
Open Scope nat_scope.

(** ** Exceptions and results *)

Inductive exn : Type :=
  | ValueError_start_indices                      (* start_indices is not a 1D unsigned array *)
  | ValueError_flat_array                         (* flat_array is not a 1D array *)
  | ValueError_invalid_start (m : nat) (vals : list nat)
                                                  (* "Invalid values include: vals" *)
  | IndexError_boolean_index (dim mask_dim : nat) (* numpy: boolean index did not match *)
  | IndexError_out_of_bounds (item : Z)           (* "{item} is out of bounds" *)
  | IndexError_empty_take                         (* "cannot do a non-empty take" *)
  | ValueError_take (inds : list Z)               (* "Invalid indices for take ...: inds" *)
  | ValueError_fill_length (got expected : nat)   (* "Length of 'value' does not match" *)
  | ValueError_slice_step                         (* "slice step cannot be zero" *)
  | ValueError_hstack                             (* numpy: need at least one array *)
  | ValueError_broadcast                          (* numpy: could not broadcast input *)
  | ValueError_fillna_kwargs                      (* pandas: must specify a fill value *)
  | ValueError_nan_to_integer                     (* numpy: cannot convert float NaN to integer *)
  | TypeError_none_to_integer.                    (* numpy: int() argument must be ... not 'NoneType' *)

Inductive result (A : Type) : Type :=
  | Ok (a : A)
  | Raise (e : exn).
Arguments Ok {A} a.
Arguments Raise {A} e.

#[global] Instance result_ret : MRet result := @Ok.
#[global] Instance result_bind : MBind result := λ A B f m,
  match m with Ok a => f a | Raise e => Raise e end.
#[global] Instance result_fmap : FMap result := λ A B f m,
  match m with Ok a => Ok (f a) | Raise e => Raise e end.

Definition is_Ok {A} (m : result A) : Prop := ∃ a, m = Ok a.

(** [mapM] for [result]: a list comprehension whose body may raise; the first
    exception, in list order, is the one that propagates. *)
Fixpoint traverse {A B} (f : A → result B) (l : list A) : result (list B) :=
  match l with
  | [] => Ok []
  | x :: l' => y ← f x; ys ← traverse f l'; Ok (y :: ys)
  end.

(** ** Values, dtypes and numpy helpers *)

(** The dtype of an array of values. *)
Inductive dtype : Type := int64 | float64.

#[global] Instance dtype_eq_dec : EqDecision dtype.
Proof. solve_decision. Defined.

(** A value of an array: a number, or the float nan (in a [float64]
    array). *)
Inductive value : Type :=
  | Num (z : Z)
  | VNaN.

#[global] Instance value_eq_dec : EqDecision value.
Proof. solve_decision. Defined.

(** What a position of a source sequence, or a materialised element, can be. *)
Inductive datum : Type :=
  | Arr (dt : dtype) (a : list value)   (* a 1-D numeric array *)
  | NaN                                 (* the float nan, [np.nan] *)
  | PyNone.                             (* [None] *)

#[global] Instance datum_eq_dec : EqDecision datum.
Proof. solve_decision. Defined.

(** [missing(v)]: [v is None or (np.isscalar(v) and np.isnan(v))]. *)
Definition missing (v : datum) : bool :=
  match v with
  | PyNone => true
  | NaN => true
  | Arr _ _ => false
  end.

(** [len(datum) if not missing(datum) else 0]. *)
Definition len_or_0 (v : datum) : nat :=
  if missing v then 0 else match v with Arr _ a => length a | _ => 0 end.

(** numpy basic slicing [a[start:stop]] for non-negative bounds: out-of-range
    bounds are clipped and [stop <= start] gives the empty array. *)
Definition np_slice {A} (a : list A) (start stop : nat) : list A :=
  take (stop - start) (drop start a).

(** [flat] with the values [a] in place of its positions [start .. stop). *)
Definition np_splice {A} (flat : list A) (start stop : nat) (a : list A) : list A :=
  take start flat ++ a ++ drop stop flat.

(** Boolean-mask indexing [a[mask]]: numpy requires the mask to have the
    length of the indexed axis and raises an [IndexError] otherwise. *)
Definition np_bool_index {A} (a : list A) (mask : list bool) : result (list A) :=
  if decide (length mask = length a)
  then Ok (fst <$> filter (λ p, snd p = true) (zip a mask))
  else Raise (IndexError_boolean_index (length a) (length mask)).

(** [np.cumsum]. *)
Fixpoint cumsum_from (acc : nat) (l : list nat) : list nat :=
  match l with
  | [] => []
  | x :: l' => (acc + x) :: cumsum_from (acc + x) l'
  end.
Definition np_cumsum (l : list nat) : list nat := cumsum_from 0 l.

(** [np.result_type] of arrays of values: [float64] as soon as one of them
    is, else [int64]. *)
Definition np_result_type (dtypes : list dtype) : dtype :=
  if decide (float64 ∈ dtypes) then float64 else int64.

(** [np.iinfo('uint' + str(nbits)).max]. *)
Definition iinfo_max (nbits : Z) : Z := (2 ^ nbits - 1)%Z.

(** [np.min_scalar_type(v)] for a non-negative integer: the width of the
    narrowest unsigned dtype that holds [v]. *)
Definition np_min_uint_nbits (v : nat) : Z :=
  if (Z.of_nat v <=? iinfo_max 8)%Z then 8%Z
  else if (Z.of_nat v <=? iinfo_max 16)%Z then 16%Z
  else if (Z.of_nat v <=? iinfo_max 32)%Z then 32%Z
  else 64%Z.

(** [array + offset] for an array of unsigned integers of [nbits] bits and
    a non-negative integer scalar (an element of an int64 array).  numpy
    gives the sum the wider of the array's dtype and the narrowest unsigned
    dtype that holds the scalar, and computes it in that width: a sum
    beyond the width wraps around. *)
Definition np_add_scalar (nbits : Z) (array : list nat) (offset : nat)
    : Z * list nat :=
  let nbits' := Z.max nbits (np_min_uint_nbits offset) in
  (nbits', (λ s, Z.to_nat ((Z.of_nat s + Z.of_nat offset) mod 2 ^ nbits')%Z) <$> array).

(** What numpy does beyond the code of the class: the conversion of a value
    from one dtype to another ([np_astype src dst v], used where the two
    differ), and what it makes of a [RaggedArray] object found among the
    items of a sequence, given with the other parameters of [fillna]. *)
Section conversion.
Variable np_astype : dtype → dtype → value → value.

(** The values of an array of dtype [src] as written to a buffer of dtype
    [dst]. *)
Definition cast (src dst : dtype) (a : list value) : list value :=
  if decide (src = dst) then a else np_astype src dst <$> a.

(** Slice assignment [flat[start:stop] = v] on a buffer of dtype [dt].  An
    array is converted and copied over the slice (the constructor always
    passes a slice of the array's length).  A missing scalar is converted
    first, which raises for an integer buffer, and then broadcast over the
    slice, which is empty. *)
Definition np_setslice (dt : dtype) (flat : list value) (start stop : nat)
    (v : datum) : result (list value) :=
  match v with
  | Arr src a => Ok (np_splice flat start stop (cast src dt a))
  | NaN =>
    match dt with
    | float64 => Ok flat
    | int64 => Raise ValueError_nan_to_integer
    end
  | PyNone =>
    match dt with
    | float64 => Ok flat
    | int64 => Raise TypeError_none_to_integer
    end
  end.
End conversion.

(** ** The container *)

(** The two buffers of a container, each with its dtype: the width in bits
    of the unsigned integers of [start_indices], and the dtype of
    [flat_array]. *)
Record RaggedArray : Type := mkRaggedArray {
  start_indices : list nat;
  flat_array : list value;
  start_nbits : Z;
  flat_dtype : dtype
}.

#[global] Instance RaggedArray_eq_dec : EqDecision RaggedArray.
Proof. solve_decision. Defined.

(** What the [dict] handed to the constructor can hold under a key: any
    Python object that is not a numpy array, or an array with its dtype, its
    rank and (for rank 1) its elements.  The dtype of what is given as
    [start_indices] is any kind of dtype with its width; the elements of an
    array that the validation rejects for its kind or rank are never read. *)
Inductive dtype_kind : Type := kind_u | kind_i | kind_f | kind_b | kind_O.

#[global] Instance dtype_kind_eq_dec : EqDecision dtype_kind.
Proof. solve_decision. Defined.

Record np_dtype : Type := mkDtype {
  dtype_kind_of : dtype_kind;
  dtype_nbits : Z
}.

Record ndarray (D A : Type) : Type := mkNdarray {
  array_dtype : D;
  ndim : nat;
  elems : list A
}.
Arguments mkNdarray {D A} array_dtype ndim elems.
Arguments array_dtype {D A} n.
Arguments ndim {D A} n.
Arguments elems {D A} n.

(** [a.dtype.kind]. *)
Definition kind {A} (a : ndarray np_dtype A) : dtype_kind :=
  dtype_kind_of (array_dtype a).

Inductive pyobject (D A : Type) : Type :=
  | NotNdarray
  | Ndarray (a : ndarray D A).
Arguments NotNdarray {D A}.
Arguments Ndarray {D A} a.

Record raw_data : Type := mkRaw {
  raw_start_indices : pyobject np_dtype nat;
  raw_flat_array : pyobject dtype value
}.

(** [_validate_ragged_properties(data)]. *)
Definition _validate_ragged_properties (data : raw_data) : result unit :=
  match raw_start_indices data with
  | NotNdarray => Raise ValueError_start_indices
  | Ndarray start_indices =>
    if negb (bool_decide (kind start_indices = kind_u))
       || negb (ndim start_indices =? 1)
    then Raise ValueError_start_indices
    else
      match raw_flat_array data with
      | NotNdarray => Raise ValueError_flat_array
      | Ndarray flat_array =>
        if negb (ndim flat_array =? 1) then Raise ValueError_flat_array
        else
          let invalid_inds :=
            (λ s, length (elems flat_array) <? s) <$> elems start_indices in
          if existsb id invalid_inds then
            some_invalid_vals ←
              np_bool_index (elems start_indices) (take 10 invalid_inds);
            Raise (ValueError_invalid_start (length (elems flat_array))
                                           some_invalid_vals)
          else Ok ()
      end
  end.

Module RaggedArray.

(** [RaggedArray(data)] for a [dict]: validate, then adopt both arrays. *)
Definition init_dict (data : raw_data) : result RaggedArray :=
  _ ← _validate_ragged_properties data;
  match raw_start_indices data, raw_flat_array data with
  | Ndarray s, Ndarray f =>
    Ok (mkRaggedArray (elems s) (elems f) (dtype_nbits (array_dtype s)) (array_dtype f))
  | _, _ => Raise ValueError_start_indices
  end.

(** The [dict(flat_array=..., start_indices=...)] built from two 1-D
    arrays, the offsets being unsigned integers of [nbits] bits. *)
Definition dict_of (start : list nat) (flat : list value) (nbits : Z) (dt : dtype)
    : raw_data :=
  mkRaw (Ndarray (mkNdarray (mkDtype kind_u nbits) 1 start))
        (Ndarray (mkNdarray dt 1 flat)).

(** [RaggedArray(data)] for another [RaggedArray]: both buffers copied. *)
Definition init_copy (data : RaggedArray) : RaggedArray :=
  mkRaggedArray (start_indices data) (flat_array data)
                (start_nbits data) (flat_dtype data).

(** [buffer_len = sum(len(datum) if not missing(datum) else 0 ...)]. *)
Definition buffer_len (data : list datum) : nat := sum_list (len_or_0 <$> data).

(** The precision of the offsets array: the loop [for nbits in [8, 16, 32,
    64]: ... if buffer_len <= max_supported: break], whose variable keeps
    the last width tried. *)
Fixpoint nbits_loop (candidates : list Z) (nbits : Z) (buffer_len : Z) : Z :=
  match candidates with
  | [] => nbits
  | n :: rest =>
    if (buffer_len <=? iinfo_max n)%Z then n else nbits_loop rest n buffer_len
  end.

Definition start_indices_nbits (data : list datum) : Z :=
  nbits_loop [8; 16; 32; 64]%Z 0%Z (Z.of_nat (buffer_len data)).

(** The dtype inferred when none is provided: [np.result_type] of the
    non-missing items, or ['float64'] when there is none. *)
Definition non_missing_dtypes (data : list datum) : list dtype :=
  omap (λ v, match v with Arr dt _ => Some dt | _ => None end) data.

Definition infer_dtype (data : list datum) : dtype :=
  match non_missing_dtypes data with
  | [] => float64
  | dtypes => np_result_type dtypes
  end.

(** [len(self)]. *)
Definition __len__ (self : RaggedArray) : nat := length (start_indices self).

(** [self[item]] for an integer [item]. *)
Definition getitem_int (self : RaggedArray) (item : Z) : result datum :=
  let len := Z.of_nat (__len__ self) in
  if ((item <? - len) || (item >=? len))%Z then Raise (IndexError_out_of_bounds item)
  else
    let item := if (item <? 0)%Z then (len + item)%Z else item in
    let slice_start := start_indices self !!! Z.to_nat item in
    let slice_end :=
      if (item + 1 <=? len - 1)%Z
      then start_indices self !!! Z.to_nat (item + 1)
      else length (flat_array self) in
    Ok (if negb (slice_end =? slice_start)
        then Arr (flat_dtype self) (np_slice (flat_array self) slice_start slice_end)
        else NaN).

(** [list(self)]: iteration calls [self[i]] for [i] in [range(len(self))]. *)
Definition to_list (self : RaggedArray) : result (list datum) :=
  traverse (getitem_int self) (Z.of_nat <$> seq 0 (__len__ self)).

(** [isna()]. *)
Definition isna (self : RaggedArray) : list bool :=
  let stop_indices := drop 1 (start_indices self) ++ [length (flat_array self)] in
  let element_lengths :=
    zip_with (λ stop start, (Z.of_nat stop - Z.of_nat start)%Z)
             stop_indices (start_indices self) in
  (λ l, (l =? 0)%Z) <$> element_lengths.

(** [copy(deep)]: re-wraps the two buffers (copied first when [deep]). *)
Definition copy (self : RaggedArray) (deep : bool) : result RaggedArray :=
  init_dict (dict_of (start_indices self) (flat_array self)
                     (start_nbits self) (flat_dtype self)).

(** *** Slices

    A Python [slice(start, stop, step)]; [np.arange(len(self))[item]] lists
    the positions it selects, by the rules of [slice.indices]. *)
Record pyslice : Type := mkSlice {
  sl_start : option Z;
  sl_stop : option Z;
  sl_step : option Z
}.

Definition slice_indices (s : pyslice) (len : Z) : result (Z * Z * Z) :=
  let step := default 1%Z (sl_step s) in
  if (step =? 0)%Z then Raise ValueError_slice_step
  else
    let lower := if (step <? 0)%Z then (-1)%Z else 0%Z in
    let upper := if (step <? 0)%Z then (len - 1)%Z else len in
    let clip v :=
      if (v <? 0)%Z then Z.max (v + len) lower else Z.min v upper in
    let start :=
      match sl_start s with
      | None => if (step <? 0)%Z then upper else lower
      | Some v => clip v
      end in
    let stop :=
      match sl_stop s with
      | None => if (step <? 0)%Z then lower else upper
      | Some v => clip v
      end in
    Ok (start, stop, step).

(** [range(start, stop, step)]. *)
Definition py_range (start stop step : Z) : list Z :=
  let count :=
    if (0 <? step)%Z
    then (if (start <? stop)%Z then (stop - start - 1) / step + 1 else 0)%Z
    else (if (stop <? start)%Z then (start - stop - 1) / (- step) + 1 else 0)%Z in
  (λ k, (start + Z.of_nat k * step)%Z) <$> seq 0 (Z.to_nat count).

Definition arange_slice (len : nat) (s : pyslice) : result (list Z) :=
  '(start, stop, step) ← slice_indices s (Z.of_nat len);
  Ok (py_range start stop step).

(** The loop [for i, m in enumerate(item): if m: data.append(self[i])]. *)
Fixpoint mask_loop (self : RaggedArray) (i : nat) (item : list bool) : result (list datum) :=
  match item with
  | [] => Ok []
  | m :: rest =>
    if m then
      d ← getitem_int self (Z.of_nat i);
      data ← mask_loop self (S i) rest;
      Ok (d :: data)
    else mask_loop self (S i) rest
  end.

(** The dispatch of [__getitem__] on the type of [item]. *)
Inductive index : Type :=
  | IInt (i : Z)
  | ISlice (s : pyslice)
  | IMask (m : list bool)
  | IList (l : list Z).

Inductive selection : Type :=
  | OneItem (d : datum)
  | Sub (r : RaggedArray).

(** A fill value, and an entry of the list [new_values] of [fillna]: an
    array, nan or [None], or a whole [RaggedArray] object. *)
Inductive pyvalue : Type :=
  | VDatum (d : datum)
  | VRagged (r : RaggedArray).

(** [np.where(mask)]: the positions set in [mask]. *)
Definition np_where (mask : list bool) : list nat :=
  fst <$> filter (λ p, snd p = true) (zip (seq 0 (length mask)) mask).

Section construction.
Variable np_astype : dtype → dtype → value → value.

(** The "populate arrays" loop of the constructor: [i] and [next_start_ind]
    are the loop variables, [si] and [fa] the two arrays being filled, [fa]
    of dtype [dt]. *)
Fixpoint populate (dt : dtype) (data : list datum) (i next_start_ind : nat)
    (si : list nat) (fa : list value) : result (list nat * list value) :=
  match data with
  | [] => Ok (si, fa)
  | array_el :: rest =>
    let n := len_or_0 array_el in
    let si' := <[i := next_start_ind]> si in
    fa' ← np_setslice np_astype dt fa next_start_ind (next_start_ind + n) array_el;
    populate dt rest (S i) (next_start_ind + n) si' fa'
  end.

(** [RaggedArray(data, dtype)] for a sequence of arrays and missing
    values; [dtype] is [None] when the caller leaves it out. *)
Definition init_seq (data : list datum) (dtype : option dtype) : result RaggedArray :=
  let index_len := length data in
  let buffer_len := buffer_len data in
  let nbits := start_indices_nbits data in
  let dtype := default (infer_dtype data) dtype in
  '(si, fa) ← populate dtype data 0 0 (replicate index_len 0)
                       (replicate buffer_len (Num 0));
  Ok (mkRaggedArray si fa nbits dtype).

(** [_from_sequence(scalars, dtype, copy)]: [RaggedArray(scalars)], the
    dtype passed being dropped. *)
Definition _from_sequence (scalars : list datum) : result RaggedArray :=
  init_seq scalars None.

(** [self[item]] for a slice. *)
Definition getitem_slice (self : RaggedArray) (item : pyslice) : result RaggedArray :=
  selected_indices ← arange_slice (__len__ self) item;
  data ← traverse (getitem_int self) selected_indices;
  init_seq data (Some (flat_dtype self)).

(** [self[item]] for a boolean array. *)
Definition getitem_mask (self : RaggedArray) (item : list bool) : result RaggedArray :=
  data ← mask_loop self 0 item;
  init_seq data (Some (flat_dtype self)).

(** [take(indices, allow_fill, fill_value)]. *)
Definition take (self : RaggedArray) (indices : list Z) (allow_fill : bool)
    (fill_value : datum) : result RaggedArray :=
  if allow_fill then
    let invalid_inds := filter (λ i, (i < -1)%Z) indices in
    if negb (bool_decide (invalid_inds = [])) then
      Raise (ValueError_take (firstn 9 invalid_inds))
    else
      sequence ← traverse
        (λ i, if (0 <=? i)%Z then getitem_int self i else Ok fill_value) indices;
      init_seq sequence (Some (flat_dtype self))
  else
    if (__len__ self =? 0) && (0 <? length indices) then Raise IndexError_empty_take
    else
      sequence ← traverse (getitem_int self) indices;
      init_seq sequence (Some (flat_dtype self)).

Definition __getitem__ (self : RaggedArray) (item : index) : result selection :=
  match item with
  | IInt i => OneItem <$> getitem_int self i
  | ISlice s => Sub <$> getitem_slice self s
  | IMask m => Sub <$> getitem_mask self m
  | IList l => Sub <$> take self l false PyNone
  end.

(** [_concat_same_type(to_concat)].  The values buffers are stacked into an
    array of their common dtype.  [offsets] is an int64 array, except for a
    list of one container: [np.cumsum] of an empty list is a float64 array,
    and [offsets] and the sum [start_indices + offset] are then float64
    arrays too (their elements are not read by the validation, which refuses
    them for their kind).  The stacked offsets have the widest of the dtypes
    of the sums. *)
Definition _concat_same_type (to_concat : list RaggedArray) : result RaggedArray :=
  match to_concat with
  | [] => Raise ValueError_hstack
  | _ =>
    let flat_dtype' := np_result_type (flat_dtype <$> to_concat) in
    let flat :=
      concat ((λ ra, cast np_astype (flat_dtype ra) flat_dtype' (flat_array ra))
                <$> to_concat) in
    let lengths := (λ ra, length (flat_array ra)) <$> removelast to_concat in
    let offsets := [0] ++ np_cumsum lengths in
    let sums :=
      zip_with (λ offset ra, np_add_scalar (start_nbits ra) (start_indices ra) offset)
               offsets to_concat in
    let start_dtype :=
      match lengths with
      | [] => mkDtype kind_f 64
      | _ => mkDtype kind_u (foldr Z.max 0%Z (fst <$> sums))
      end in
    let starts := concat (snd <$> sums) in
    init_dict (mkRaw (Ndarray (mkNdarray start_dtype 1 starts))
                     (Ndarray (mkNdarray flat_dtype' 1 flat)))
  end.

(** [shift(periods, fill_value)]. *)
Definition shift (self : RaggedArray) (periods : Z) (fill_value : datum)
    : result RaggedArray :=
  if (__len__ self =? 0) || (periods =? 0)%Z then copy self false
  else
    let fill_value := match fill_value with PyNone => NaN | v => v end in
    empty ← _from_sequence (replicate (Z.abs_nat periods `min` __len__ self) fill_value);
    if (0 <? periods)%Z then
      b ← getitem_slice self (mkSlice None (Some (- periods)%Z) None);
      _concat_same_type [empty; b]
    else
      a ← getitem_slice self (mkSlice (Some (Z.abs periods)) None None);
      _concat_same_type [a; empty].
End construction.

(** *** Element identity: [RaggedElement] and [unique] *)

(** An entry of the object array built by [_as_ragged_element_array]: a
    [RaggedElement] wrapping a materialised element, or the float nan. *)
Inductive entry : Type :=
  | RaggedElement (array : datum)
  | FloatNaN.

(** [RaggedElement.ragged_or_nan(a)] and [RaggedElement.array_or_nan(a)]. *)
Definition ragged_or_nan (a : datum) : entry :=
  match a with
  | NaN => FloatNaN
  | _ => RaggedElement a
  end.

Definition array_or_nan (a : entry) : datum :=
  match a with
  | FloatNaN => NaN
  | RaggedElement array => array
  end.

(** [x == y] and [x < y] on two values: numbers compare by their value,
    whatever the dtypes they come from, and every comparison with nan is
    false. *)
Definition value_eqb (x y : value) : bool :=
  match x, y with
  | Num a, Num b => (a =? b)%Z
  | _, _ => false
  end.


(** [(a == b).all()] on two arrays of the same length. *)
Fixpoint all_equal (a b : list value) : bool :=
  match a, b with
  | [], [] => true
  | x :: a', y :: b' => value_eqb x y && all_equal a' b'
  | _, _ => false
  end.

(** [np.array_equal(a, b)]: same shape and equal elements. *)
Definition np_array_equal (a b : datum) : bool :=
  match a, b with
  | Arr _ x, Arr _ y => bool_decide (length x = length y) && all_equal x y
  | PyNone, PyNone => true
  | _, _ => false
  end.

(** [RaggedElement.__eq__(self, other)]; [False] when [other] is not a
    [RaggedElement]. *)
Definition RaggedElement__eq__ (self other : entry) : bool :=
  match self, other with
  | RaggedElement a, RaggedElement b => np_array_equal a b
  | _, _ => false
  end.

(** [tuple(self.array)]; only arrays are ever wrapped. *)
Definition tuple_of (array : datum) : list value :=
  match array with
  | Arr _ a => a
  | _ => []
  end.

(** [RaggedElement.__hash__]: [hash(tuple(self.array))], the hash of the
    full value sequence, represented by that sequence. *)
Definition RaggedElement__hash__ (array : datum) : list value := tuple_of array.







(** Modelled from the spec: the test by which [pandas.unique], which is not
    part of this repository, takes two entries for the same key: equal by
    [__eq__], or both missing (missing values form a single class). *)
Definition same_key (x y : entry) : bool :=
  match x, y with
  | FloatNaN, FloatNaN => true
  | _, _ => RaggedElement__eq__ x y
  end.

(** Modelled from the spec: the pass of [pandas.unique] over the values,
    [table] holding the keys met so far; an entry is kept when its key is
    new, so that the survivors are in order of first occurrence. *)
Fixpoint unique_loop (table : list entry) (values : list entry) : list entry :=
  match values with
  | [] => []
  | v :: rest =>
    if existsb (same_key v) table then unique_loop table rest
    else v :: unique_loop (v :: table) rest
  end.

(** Modelled from the spec: [pandas.unique(values)], deduplication by the
    Element Identity contract that preserves first-occurrence order. *)
Definition pandas_unique (values : list entry) : list entry := unique_loop [] values.

(** [_as_ragged_element_array()]. *)
Definition _as_ragged_element_array (self : RaggedArray) : result (list entry) :=
  traverse (λ i, ragged_or_nan <$> getitem_int self (Z.of_nat i))
           (seq 0 (__len__ self)).

(** [_values_for_factorize()] and [_values_for_argsort()]. *)
Definition _values_for_factorize (self : RaggedArray) : result (list entry * datum) :=
  arr ← _as_ragged_element_array self;
  Ok (arr, NaN).

Definition _values_for_argsort (self : RaggedArray) : result (list entry) :=
  _as_ragged_element_array self.

Section reencoding.
Variable np_astype : dtype → dtype → value → value.

(** [unique()]. *)
Definition unique (self : RaggedArray) : result RaggedArray :=
  arr ← _as_ragged_element_array self;
  let uniques := pandas_unique arr in
  _from_sequence np_astype (array_or_nan <$> uniques).

(** [_from_factorized(values, original)]. *)
Definition _from_factorized (values : list entry) (original : RaggedArray)
    : result RaggedArray :=
  init_seq np_astype (array_or_nan <$> values) (Some (flat_dtype original)).

(** [fillna(value, method=None, limit=None)] up to the list [new_values]
    that it hands to [_from_sequence]; [None] stands for the branch that
    returns [self.copy()].  pandas' [validate_fillna_kwargs] rejects a call
    with neither value nor method. *)
Definition fillna_new_values (self : RaggedArray) (value : pyvalue)
    : result (option (list pyvalue)) :=
  if match value with VDatum PyNone => true | _ => false end
  then Raise ValueError_fillna_kwargs
  else
    let mask := isna self in
    value ←
      match value with
      | VRagged value =>
        if negb (__len__ value =? __len__ self)
        then Raise (ValueError_fill_length (__len__ value) (__len__ self))
        else VRagged <$> getitem_mask np_astype value mask
      | _ => Ok value
      end;
    if existsb id mask then
      new_values ← fmap (M := list) VDatum <$> to_list self;
      let mask_indices := np_where mask in
      Ok (Some (foldl (λ new_values ind, <[ind := value]> new_values)
                      new_values mask_indices))
    else Ok None.

(** The constructor on a sequence that may hold [RaggedArray] objects.
    What numpy makes of such an object is a parameter: the dtype of
    [np.atleast_1d(obj)], and [np_coerce dt obj n], the [n] values written
    when the object is assigned to a slice of a values buffer of dtype
    [dt], or the exception raised; an assignment never changes the length
    of the buffer. *)
Variable np_coerce_dtype : RaggedArray → dtype.
Variable np_coerce : dtype → RaggedArray → nat → result (list value).

Definition value_len (v : pyvalue) : nat :=
  match v with
  | VDatum d => len_or_0 d
  | VRagged r => __len__ r
  end.

Definition non_missing_dtypes_values (data : list pyvalue) : list dtype :=
  omap (λ v, match v with
             | VDatum (Arr dt _) => Some dt
             | VDatum _ => None
             | VRagged r => Some (np_coerce_dtype r)
             end) data.

Definition infer_dtype_values (data : list pyvalue) : dtype :=
  match non_missing_dtypes_values data with
  | [] => float64
  | dtypes => np_result_type dtypes
  end.

Definition np_setslice_value (dt : dtype) (flat : list value) (start stop : nat)
    (v : pyvalue) : result (list value) :=
  match v with
  | VDatum d => np_setslice np_astype dt flat start stop d
  | VRagged r =>
    a ← np_coerce dt r (stop - start);
    if length a =? stop - start
    then Ok (np_splice flat start stop a)
    else Raise ValueError_broadcast
  end.

Fixpoint populate_values (dt : dtype) (data : list pyvalue) (i next_start_ind : nat)
    (si : list nat) (fa : list value) : result (list nat * list value) :=
  match data with
  | [] => Ok (si, fa)
  | array_el :: rest =>
    let n := value_len array_el in
    let si' := <[i := next_start_ind]> si in
    fa' ← np_setslice_value dt fa next_start_ind (next_start_ind + n) array_el;
    populate_values dt rest (S i) (next_start_ind + n) si' fa'
  end.

Definition init_values (data : list pyvalue) : result RaggedArray :=
  let index_len := length data in
  let buffer_len := sum_list (value_len <$> data) in
  let nbits := nbits_loop [8; 16; 32; 64]%Z 0%Z (Z.of_nat buffer_len) in
  let dtype := infer_dtype_values data in
  '(si, fa) ← populate_values dtype data 0 0 (replicate index_len 0)
                              (replicate buffer_len (Num 0));
  Ok (mkRaggedArray si fa nbits dtype).

Definition fillna (self : RaggedArray) (value : pyvalue) : result RaggedArray :=
  new_values ← fillna_new_values self value;
  match new_values with
  | Some new_values => init_values new_values
  | None => copy self false
  end.
End reencoding.

End RaggedArray.

(** ** Buffer identity

    A numpy array is an object: two containers may hold the very same buffer.
    The heap maps a buffer identity to the array stored there; a container
    object holds the identities of its two buffers. *)
Module Heap.

Definition buffer_id : Type := nat.

Inductive buffer : Type :=
  | UIntArray (nbits : Z) (a : list nat)    (* a 1-D array of unsigned integers *)
  | ValueArray (dt : dtype) (a : list value).  (* a 1-D array of values *)

Abbreviation heap := (list buffer).

Record RaggedObject : Type := mkObject {
  start_indices_id : buffer_id;
  flat_array_id : buffer_id
}.

(** Allocation of a new array ([np.zeros], [np.hstack], [ndarray.copy]). *)
Definition new_array (b : buffer) (h : heap) : buffer_id * heap :=
  (length h, h ++ [b]).

(** The values held by an array, and their dtype; an array of unsigned
    integers met as a values buffer is read as the integers it holds. *)
Definition buffer_values (b : buffer) : list value :=
  match b with
  | UIntArray _ a => Num ∘ Z.of_nat <$> a
  | ValueArray _ a => a
  end.

Definition buffer_dtype (b : buffer) : dtype :=
  match b with
  | UIntArray _ _ => int64
  | ValueArray dt _ => dt
  end.

(** The arrays found under the two keys of the [dict], as the validation
    sees them. *)
Definition as_start_indices (b : option buffer) : pyobject np_dtype nat :=
  match b with
  | Some (UIntArray nbits a) => Ndarray (mkNdarray (mkDtype kind_u nbits) 1 a)
  | Some (ValueArray int64 a) => Ndarray (mkNdarray (mkDtype kind_i 64) 1 [])
  | Some (ValueArray float64 a) => Ndarray (mkNdarray (mkDtype kind_f 64) 1 [])
  | None => NotNdarray
  end.

Definition as_flat_array (b : option buffer) : pyobject dtype value :=
  match b with
  | Some b => Ndarray (mkNdarray (buffer_dtype b) 1 (buffer_values b))
  | None => NotNdarray
  end.

Definition raw_of (h : heap) (start_id flat_id : buffer_id) : raw_data :=
  mkRaw (as_start_indices (h !! start_id)) (as_flat_array (h !! flat_id)).

(** The contents of a container object: its offsets buffer is an array
    of unsigned integers, its values buffer any array. *)
Definition contents (h : heap) (o : RaggedObject) : option RaggedArray :=
  match h !! start_indices_id o, h !! flat_array_id o with
  | Some (UIntArray nbits s), Some f =>
    Some (mkRaggedArray s (buffer_values f) nbits (buffer_dtype f))
  | _, _ => None
  end.

(** [RaggedArray(dict(flat_array=..., start_indices=...))]: after the
    validation the object keeps the two arrays it was given. *)
Definition init_dict (start_id flat_id : buffer_id) (h : heap)
    : result (RaggedObject * heap) :=
  _ ← _validate_ragged_properties (raw_of h start_id flat_id);
  Ok (mkObject start_id flat_id, h).

(** [ndarray.copy()]. *)
Definition array_copy (id : buffer_id) (h : heap) : buffer_id * heap :=
  new_array (default (ValueArray float64 []) (h !! id)) h.

(** [RaggedArray(data)] for a [RaggedArray]: both buffers are copied. *)
Definition init_copy (data : RaggedObject) (h : heap) : RaggedObject * heap :=
  let '(flat_id, h) := array_copy (flat_array_id data) h in
  let '(start_id, h) := array_copy (start_indices_id data) h in
  (mkObject start_id flat_id, h).

(** [copy(deep=False)]. *)
Definition copy (self : RaggedObject) (deep : bool) (h : heap)
    : result (RaggedObject * heap) :=
  if deep then
    let '(flat_id, h) := array_copy (flat_array_id self) h in
    let '(start_id, h) := array_copy (start_indices_id self) h in
    init_dict start_id flat_id h
  else init_dict (start_indices_id self) (flat_array_id self) h.

(** A container computed from contents alone lives in two new arrays. *)
Definition wrap (r : RaggedArray) (h : heap) : RaggedObject * heap :=
  let '(start_id, h) := new_array (UIntArray (start_nbits r) (start_indices r)) h in
  let '(flat_id, h) := new_array (ValueArray (flat_dtype r) (flat_array r)) h in
  (mkObject start_id flat_id, h).

(** [shift(periods, fill_value)] on objects: the first branch returns
    [self.copy()]; the second concatenates into new arrays. *)
Definition shift (np_astype : dtype → dtype → value → value)
    (self : RaggedObject) (periods : Z) (fill_value : datum)
    (h : heap) : result (RaggedObject * heap) :=
  match contents h self with
  | None => Raise ValueError_start_indices
  | Some c =>
    if (RaggedArray.__len__ c =? 0) || (periods =? 0)%Z then copy self false h
    else
      r ← RaggedArray.shift np_astype c periods fill_value;
      Ok (wrap r h)
  end.

(** [astype(dtype, copy)] for a [dtype] that is a [RaggedDtype], the one
    branch that returns a container: [self.copy()] when [copy] is set, else
    [self]. *)
Definition astype (self : RaggedObject) (copy' : bool) (h : heap)
    : result (RaggedObject * heap) :=
  if copy' then copy self false h else Ok (self, h).

(** [a] and [b] hold a buffer in common. *)
Definition shares_buffer (a b : RaggedObject) : Prop :=
  start_indices_id a = start_indices_id b ∨ flat_array_id a = flat_array_id b.

(** [b] is a deep copy of [a]: same contents, and no buffer of [a] is a
    buffer of [b]. *)
Definition deep_copy_of (h : heap) (a : RaggedObject) (h' : heap) (b : RaggedObject) : Prop :=
  contents h' b = contents h a ∧ ¬ shares_buffer a b.

End Heap.

(** * Specification-level notions *)

(** Invariant A: every offset is at most the length of the values buffer. *)
Definition InvariantA (r : RaggedArray) : Prop :=
  Forall (λ s, s ≤ length (flat_array r)) (start_indices r).

(** The logical element at position [j], as the data model words it: its
    value range starts at [offsets[j]] and stops at [offsets[j+1]], or at the
    length of the values buffer for the last position; an element whose start
    and stop coincide is missing. *)
Definition stop_of (r : RaggedArray) (j : nat) : nat :=
  if decide (S j = length (start_indices r))
  then length (flat_array r)
  else start_indices r !!! S j.

Definition element (r : RaggedArray) (j : nat) : datum :=
  let start := start_indices r !!! j in
  let stop := stop_of r j in
  if decide (start = stop) then NaN
  else Arr (flat_dtype r) (np_slice (flat_array r) start stop).

Definition elements (r : RaggedArray) : list datum :=
  element r <$> seq 0 (length (start_indices r)).

(** How an item comes back once encoded: [None] and a zero-length array are
    both stored as an empty range, which materialises as nan. *)
Definition norm (d : datum) : datum :=
  match d with
  | Arr _ [] => NaN
  | PyNone => NaN
  | _ => d
  end.

(** A zero-length array. *)
Definition zero_length (d : datum) : Prop :=
  match d with
  | Arr _ [] => True
  | _ => False
  end.

(** The offsets the constructor computes for a sequence. *)
Fixpoint offsets_from (next : nat) (data : list datum) : list nat :=
  match data with
  | [] => []
  | d :: rest => next :: offsets_from (next + len_or_0 d) rest
  end.

(** An array item has dtype [dt]; a missing item has any. *)
Definition has_dtype (dt : dtype) (d : datum) : Prop :=
  match d with
  | Arr src _ => src = dt
  | _ => True
  end.

(** The sequences that a values buffer of dtype [dt] can encode: a missing
    item is written as a nan scalar, which an integer buffer refuses. *)
Definition encodable (dt : dtype) (data : list datum) : Prop :=
  dt = float64 ∨ Forall (λ d, missing d = false) data.

(** The exception raised when the missing item [d] meets an integer
    buffer. *)
Definition missing_error (d : datum) : exn :=
  match d with
  | PyNone => TypeError_none_to_integer
  | _ => ValueError_nan_to_integer
  end.

Section encoding.
Variable np_astype : dtype → dtype → value → value.

(** The values that an item contributes to a buffer of dtype [dt], and the
    item as an array of that dtype. *)
Definition values_in (dt : dtype) (d : datum) : list value :=
  match d with
  | Arr src a => cast np_astype src dt a
  | _ => []
  end.

Definition flat_of (dt : dtype) (data : list datum) : list value :=
  concat (values_in dt <$> data).

Definition recast (dt : dtype) (d : datum) : datum :=
  match d with
  | Arr src a => Arr dt (cast np_astype src dt a)
  | _ => d
  end.

(** The container that encodes the sequence [data] in a values buffer of
    dtype [dt]. *)
Definition encoding (dt : dtype) (data : list datum) : RaggedArray :=
  mkRaggedArray (offsets_from 0 data) (flat_of dt data)
                (RaggedArray.start_indices_nbits data) dt.
End encoding.


(** Positional access as the access layer words it: indices outside
    [[-N, N)] are a bounds error, a negative index counts from the end. *)
Definition positional_access (r : RaggedArray) (i : Z) : result datum :=
  let N := Z.of_nat (length (start_indices r)) in
  if decide (- N ≤ i < N)%Z
  then Ok (element r (Z.to_nat (if decide (i < 0)%Z then N + i else i)%Z))
  else Raise (IndexError_out_of_bounds i).

(** The containers that the public operations can produce, whatever numpy
    does when it converts values.  Construction from a sequence also stands
    for every call that ends in [_from_sequence], such as [fillna] with a
    fill method. *)
Inductive reachable : RaggedArray → Prop :=
  | reach_sequence np_astype data dtype r :
      RaggedArray.init_seq np_astype data dtype = Ok r → reachable r
  | reach_raw_pair raw r :
      RaggedArray.init_dict raw = Ok r → reachable r
  | reach_duplicate r :
      reachable r → reachable (RaggedArray.init_copy r)
  | reach_copy r deep r' :
      reachable r → RaggedArray.copy r deep = Ok r' → reachable r'
  | reach_getitem np_astype r item r' :
      reachable r →
      RaggedArray.__getitem__ np_astype r item = Ok (RaggedArray.Sub r') →
      reachable r'
  | reach_take np_astype r indices allow_fill fill_value r' :
      reachable r →
      RaggedArray.take np_astype r indices allow_fill fill_value = Ok r' →
      reachable r'
  | reach_concat np_astype to_concat r' :
      (∀ r, r ∈ to_concat → reachable r) →
      RaggedArray._concat_same_type np_astype to_concat = Ok r' → reachable r'
  | reach_fillna np_astype np_coerce_dtype np_coerce r value r' :
      reachable r →
      RaggedArray.fillna np_astype np_coerce_dtype np_coerce r value = Ok r' →
      reachable r'
  | reach_shift np_astype r periods fill_value r' :
      reachable r → RaggedArray.shift np_astype r periods fill_value = Ok r' →
      reachable r'
  | reach_unique np_astype r r' :
      reachable r → RaggedArray.unique np_astype r = Ok r' → reachable r'.

(** The elements of [l] at the positions where [mask] is true; positions
    beyond the shorter of the two are not selected. *)
Definition select_true {A} (l : list A) (mask : list bool) : list A :=
  fst <$> filter (λ p, snd p = true) (zip l mask).


(** First-occurrence deduplication: an element is kept exactly when it does
    not occur among the elements [before] it. *)
Fixpoint first_occurrences_after (before l : list datum) : list datum :=
  match l with
  | [] => []
  | x :: l' =>
    if decide (x ∈ before) then first_occurrences_after (x :: before) l'
    else x :: first_occurrences_after (x :: before) l'
  end.

Definition first_occurrences (l : list datum) : list datum :=
  first_occurrences_after [] l.

(** An item that holds no nan value. *)
Definition nan_free (d : datum) : Prop := VNaN ∉ RaggedArray.tuple_of d.

(** The raw pairs the constructor is meant to accept. *)
Definition well_formed (data : raw_data) : Prop :=
  ∃ s f, raw_start_indices data = Ndarray s ∧ kind s = kind_u ∧ ndim s = 1 ∧
         raw_flat_array data = Ndarray f ∧ ndim f = 1 ∧
         Forall (λ x, x ≤ length (elems f)) (elems s).


(** The position that an index of [[-N, N)] designates, a negative index
    counting from the end. *)
Definition wrap_index (N : nat) (i : Z) : nat :=
  Z.to_nat (if decide (i < 0)%Z then Z.of_nat N + i else i)%Z.

Definition in_bounds (N : nat) (i : Z) : Prop :=
  (- Z.of_nat N ≤ i < Z.of_nat N)%Z.

(** [n] is within the narrowest width of an offsets array, [uint8].  For
    containers that hold no more values than this in all, no sum of an offset
    and a number of values leaves the width of any offsets array. *)
Definition fits_uint8 (n : nat) : Prop := (Z.of_nat n ≤ iinfo_max 8)%Z.

(** The width of the sum of an offsets array of [nbits] bits and the scalar
    [offset], and the sums that stay within it. *)
Definition sum_nbits (nbits : Z) (offset : nat) : Z :=
  Z.max nbits (np_min_uint_nbits offset).

Definition no_wrap (nbits : Z) (array : list nat) (offset : nat) : Prop :=
  Forall (λ s, (Z.of_nat (s + offset) ≤ iinfo_max (sum_nbits nbits offset))%Z) array.



(** The concatenation of two containers when no sum wraps around. *)
Definition appended (np_astype : dtype → dtype → value → value)
    (a b : RaggedArray) : RaggedArray :=
  let dt := np_result_type [flat_dtype a; flat_dtype b] in
  mkRaggedArray
    (start_indices a ++ ((λ s, s + length (flat_array a)) <$> start_indices b))
    (cast np_astype (flat_dtype a) dt (flat_array a)
       ++ cast np_astype (flat_dtype b) dt (flat_array b))
    (Z.max (sum_nbits (start_nbits a) 0)
           (Z.max (sum_nbits (start_nbits b) (length (flat_array a))) 0))
    dt.




(** The first offset of the container is 0; for a container without
    positions, its values buffer is empty. *)
Definition head_at_zero (r : RaggedArray) : Prop :=
  match start_indices r with
  | [] => flat_array r = []
  | s :: _ => s = 0
  end.

(** * Proofs *)

(** Case analysis on the boolean comparisons of the code. *)
Ltac case_cmp :=
  rewrite ?Z.geb_leb;
  repeat match goal with
  | |- context [(?a <? ?b)%Z] => destruct (Z.ltb_spec a b); try lia
  | |- context [(?a <=? ?b)%Z] => destruct (Z.leb_spec a b); try lia
  | |- context [(?a =? ?b)%Z] => destruct (Z.eqb_spec a b); try lia
  | |- context [(?a =? ?b)%nat] => destruct (Nat.eqb_spec a b); try lia
  | |- context [(?a <? ?b)%nat] => destruct (Nat.ltb_spec a b); try lia
  | |- context [(?a <=? ?b)%nat] => destruct (Nat.leb_spec a b); try lia
  end.

Ltac solve_InvariantA :=
  unfold InvariantA; simpl; repeat (constructor; [simpl; lia|]); constructor.

(** Membership in an explicit list. *)
Ltac solve_not_elem :=
  let H := fresh in
  intros H; repeat (apply elem_of_cons in H as [H|H]; [discriminate H|]);
  by apply elem_of_nil in H.

Lemma bind_Ok {A B} (m : result A) (f : A → result B) b :
  m ≫= f = Ok b ↔ ∃ a, m = Ok a ∧ f a = Ok b.
Proof.
  destruct m as [a|e]; simpl; split.
  - eauto.
  - by intros (a' & [= <-] & ?).
  - done.
  - by intros (a' & ? & ?).
Qed.

Lemma bind_Ok_l {A B} (a : A) (f : A → result B) : Ok a ≫= f = f a.
Proof. done. Qed.

Lemma bind_Raise_l {A B} (e : exn) (f : A → result B) : Raise e ≫= f = Raise e.
Proof. done. Qed.

Lemma buffer_len_cons d data :
  RaggedArray.buffer_len (d :: data) = len_or_0 d + RaggedArray.buffer_len data.
Proof. done. Qed.

Lemma buffer_len_app l1 l2 :
  RaggedArray.buffer_len (l1 ++ l2) = RaggedArray.buffer_len l1 + RaggedArray.buffer_len l2.
Proof.
  unfold RaggedArray.buffer_len. induction l1 as [|d l1 IH]; csimpl; [done|].
  rewrite IH. lia.
Qed.

Lemma length_offsets_from next data : length (offsets_from next data) = length data.
Proof. revert next. induction data; intros; csimpl; [done|]. by rewrite IHdata. Qed.

(** A sequence that is not free of missing items has a first one. *)
Lemma first_missing data :
  ¬ Forall (λ d, missing d = false) data →
  ∃ l1 d l2, data = l1 ++ d :: l2 ∧ Forall (λ d, missing d = false) l1 ∧
             missing d = true.
Proof.
  induction data as [|d data IH]; intros Hnot.
  - destruct Hnot. constructor.
  - destruct (missing d) eqn:Hd.
    + by exists [], d, data.
    + destruct IH as (l1 & d' & l2 & -> & Hl1 & Hd').
      { intros Hall. apply Hnot. by constructor. }
      exists (d :: l1), d', l2. split_and!; [done| |done]. by constructor.
Qed.

Lemma encodable_dec dt data : Decision (encodable dt data).
Proof. unfold encodable. apply _. Defined.

Lemma not_encodable dt data :
  ¬ encodable dt data →
  dt = int64 ∧
  ∃ l1 d l2, data = l1 ++ d :: l2 ∧ Forall (λ d, missing d = false) l1 ∧
             missing d = true.
Proof.
  intros Hnot. split.
  - destruct dt; [done|]. destruct Hnot. by left.
  - apply first_missing. intros Hall. apply Hnot. by right.
Qed.

Lemma encodable_app dt l1 l2 :
  encodable dt (l1 ++ l2) ↔ encodable dt l1 ∧ encodable dt l2.
Proof.
  unfold encodable. rewrite Forall_app. intuition congruence.
Qed.

Lemma encodable_cons dt d l :
  encodable dt (d :: l) ↔ (dt = float64 ∨ missing d = false) ∧ encodable dt l.
Proof.
  unfold encodable. rewrite Forall_cons. intuition congruence.
Qed.

Section proofs.
Context (np_astype : dtype → dtype → value → value).

(** ** The constructor on sequences *)

Lemma length_cast src dst a : length (cast np_astype src dst a) = length a.
Proof. unfold cast. case_decide; [done|]. by rewrite length_fmap. Qed.

Lemma cast_same dt a : cast np_astype dt dt a = a.
Proof. unfold cast. by rewrite decide_True. Qed.


Lemma len_or_0_values dt d : len_or_0 d = length (values_in np_astype dt d).
Proof. destruct d; simpl; [|done|done]. by rewrite length_cast. Qed.

Lemma buffer_len_flat dt data :
  RaggedArray.buffer_len data = length (flat_of np_astype dt data).
Proof.
  unfold RaggedArray.buffer_len, flat_of.
  induction data as [|d data IH]; csimpl; [done|].
  by rewrite length_app, IH, (len_or_0_values dt).
Qed.

Lemma flat_of_app dt l1 l2 :
  flat_of np_astype dt (l1 ++ l2) = flat_of np_astype dt l1 ++ flat_of np_astype dt l2.
Proof. unfold flat_of. by rewrite fmap_app, concat_app. Qed.

Lemma np_setslice_spec dt fa next d :
  dt = float64 ∨ missing d = false →
  next + len_or_0 d ≤ length fa →
  np_setslice np_astype dt fa next (next + len_or_0 d) d =
    Ok (take next fa ++ values_in np_astype dt d ++ drop (next + len_or_0 d) fa).
Proof.
  intros Hok Hle. destruct d as [src a| |]; simpl in *.
  - done.
  - destruct Hok as [->|]; [|done]. by rewrite Nat.add_0_r, take_drop.
  - destruct Hok as [->|]; [|done]. by rewrite Nat.add_0_r, take_drop.
Qed.

Lemma np_setslice_raises fa start stop d :
  missing d = true →
  np_setslice np_astype int64 fa start stop d = Raise (missing_error d).
Proof. by destruct d. Qed.

Lemma populate_spec dt data : ∀ i next si fa,
  encodable dt data →
  i + length data ≤ length si →
  next + RaggedArray.buffer_len data ≤ length fa →
  RaggedArray.populate np_astype dt data i next si fa =
    Ok (take i si ++ offsets_from next data ++ drop (i + length data) si,
        take next fa ++ flat_of np_astype dt data
          ++ drop (next + RaggedArray.buffer_len data) fa).
Proof.
  induction data as [|d rest IH]; intros i next si fa Henc Hsi Hfa; simpl.
  - by rewrite !Nat.add_0_r, !take_drop.
  - apply encodable_cons in Henc as [Hd Henc].
    rewrite buffer_len_cons in Hfa. simpl in Hsi.
    rewrite np_setslice_spec by (done || lia). rewrite bind_Ok_l.
    rewrite IH; [|done| |].
    + do 2 f_equal.
      * rewrite (insert_take_drop si i next) by lia.
        rewrite take_app_ge, drop_app_ge by (rewrite length_take; lia).
        rewrite length_take, Nat.min_l by lia.
        replace (S i - i) with 1 by lia.
        replace (S i + length rest - i) with (S (length rest)) by lia.
        simpl. rewrite take_0, drop_drop, <- app_assoc. simpl.
        by rewrite Nat.add_succ_r.
      * unfold flat_of. csimpl. fold (flat_of np_astype dt rest).
        rewrite !app_assoc, take_app_length'.
        2:{ rewrite length_app, length_take, <- len_or_0_values. lia. }
        rewrite <- !app_assoc. do 3 f_equal.
        rewrite buffer_len_cons.
        rewrite drop_app_ge.
        2:{ rewrite length_take. lia. }
        rewrite drop_app_ge.
        2:{ rewrite length_take, <- len_or_0_values. lia. }
        rewrite drop_drop, length_take, <- len_or_0_values. f_equal. lia.
    + rewrite length_insert. lia.
    + rewrite !length_app, length_take, length_drop, <- len_or_0_values. lia.
Qed.

Lemma populate_raises l1 d l2 : ∀ i next si fa,
  Forall (λ d, missing d = false) l1 → missing d = true →
  RaggedArray.populate np_astype int64 (l1 ++ d :: l2) i next si fa
    = Raise (missing_error d).
Proof.
  induction l1 as [|x l1 IH]; intros i next si fa Hl1 Hd; simpl.
  - by rewrite np_setslice_raises.
  - apply Forall_cons in Hl1 as [Hx Hl1].
    destruct x as [src a| |]; try done. simpl. by apply IH.
Qed.

Lemma init_seq_spec data dtype :
  let dt := default (RaggedArray.infer_dtype data) dtype in
  encodable dt data →
  RaggedArray.init_seq np_astype data dtype = Ok (encoding np_astype dt data).
Proof.
  intros dt Henc. unfold RaggedArray.init_seq. fold dt.
  rewrite populate_spec by (done || rewrite length_replicate; lia).
  simpl. rewrite !drop_ge, !app_nil_r by (rewrite length_replicate; lia).
  done.
Qed.

Lemma init_seq_raises data dtype :
  let dt := default (RaggedArray.infer_dtype data) dtype in
  ¬ encodable dt data →
  ∃ d, d ∈ data ∧ missing d = true ∧
       RaggedArray.init_seq np_astype data dtype = Raise (missing_error d).
Proof.
  intros dt (Hdt & l1 & d & l2 & Hdata & Hl1 & Hd)%not_encodable.
  exists d. split; [|split; [done|]].
  - rewrite Hdata. apply elem_of_app. right. left.
  - unfold RaggedArray.init_seq. fold dt. rewrite Hdt. clear dt Hdt. subst data.
    by rewrite populate_raises.
Qed.

Lemma init_seq_Ok_inv data dtype r :
  RaggedArray.init_seq np_astype data dtype = Ok r →
  let dt := default (RaggedArray.infer_dtype data) dtype in
  encodable dt data ∧ r = encoding np_astype dt data.
Proof.
  intros Hr dt. destruct (encodable_dec dt data) as [Henc|Hnot].
  - split; [done|]. rewrite init_seq_spec in Hr by done. by injection Hr.
  - apply init_seq_raises in Hnot as (d & _ & _ & Hraise). congruence.
Qed.

(** ** Positional access *)

Lemma getitem_int_nonneg r (j : nat) :
  j < length (start_indices r) →
  RaggedArray.getitem_int r (Z.of_nat j) = Ok (element r j).
Proof.
  intros Hj. unfold RaggedArray.getitem_int, RaggedArray.__len__, element, stop_of.
  destruct (Z.ltb_spec (Z.of_nat j) 0); [lia|].
  replace (Z.to_nat (Z.of_nat j + 1)) with (S j) by lia.
  rewrite Nat2Z.id.
  case_cmp; simpl; repeat case_decide; try lia; try congruence.
Qed.

Lemma getitem_int_negative r (j : nat) :
  j < length (start_indices r) →
  RaggedArray.getitem_int r (Z.of_nat j - Z.of_nat (length (start_indices r)))
    = Ok (element r j).
Proof.
  intros Hj. rewrite <- (getitem_int_nonneg r j Hj).
  unfold RaggedArray.getitem_int, RaggedArray.__len__.
  set (n := Z.of_nat (length (start_indices r))).
  assert (0 ≤ Z.of_nat j < n)%Z by lia.
  destruct (Z.ltb_spec (Z.of_nat j - n) 0); [|lia].
  destruct (Z.ltb_spec (Z.of_nat j) 0); [lia|].
  replace (n + (Z.of_nat j - n))%Z with (Z.of_nat j) by lia.
  case_cmp; simpl; done.
Qed.

Lemma getitem_int_out_of_bounds r (i : Z) :
  (i < - Z.of_nat (length (start_indices r)) ∨ Z.of_nat (length (start_indices r)) ≤ i)%Z →
  RaggedArray.getitem_int r i = Raise (IndexError_out_of_bounds i).
Proof.
  intros Hi. unfold RaggedArray.getitem_int, RaggedArray.__len__.
  case_cmp; simpl; done.
Qed.

Lemma traverse_Ok {A B} (f : A → result B) (g : A → B) (l : list A) :
  (∀ x, x ∈ l → f x = Ok (g x)) → traverse f l = Ok (g <$> l).
Proof.
  induction l as [|x l IH]; intros Hf; csimpl; [done|].
  rewrite Hf by left. simpl. rewrite IH; [done|].
  intros y Hy. apply Hf. by right.
Qed.

Lemma to_list_elements r : RaggedArray.to_list r = Ok (elements r).
Proof.
  unfold RaggedArray.to_list, elements, RaggedArray.__len__.
  rewrite (traverse_Ok _ (λ i, element r (Z.to_nat i))).
  - f_equal. rewrite <- list_fmap_compose. apply list_fmap_ext.
    intros i x _. simpl. by rewrite Nat2Z.id.
  - intros x (j & -> & Hj)%list_elem_of_fmap. apply elem_of_seq in Hj.
    rewrite Nat2Z.id. apply getitem_int_nonneg. lia.
Qed.

Lemma length_elements r : length (elements r) = length (start_indices r).
Proof. unfold elements. by rewrite length_fmap, length_seq. Qed.

Lemma lookup_elements r j :
  j < length (start_indices r) → elements r !! j = Some (element r j).
Proof.
  intros Hj. unfold elements. rewrite list_lookup_fmap, lookup_seq_lt by done.
  done.
Qed.

(** Every element of a container is nan or an array of the dtype of its
    values buffer, never [None]. *)
Lemma element_has_dtype c j : has_dtype (flat_dtype c) (element c j).
Proof. unfold element. by case_decide. Qed.

Lemma element_not_None c j : element c j ≠ PyNone.
Proof. unfold element. by case_decide. Qed.

Lemma elements_has_dtype c : Forall (has_dtype (flat_dtype c)) (elements c).
Proof.
  apply Forall_forall. intros d (j & -> & _)%list_elem_of_fmap.
  apply element_has_dtype.
Qed.

(** ** The encoding of a sequence *)

Lemma offsets_from_lookup data : ∀ next i,
  i < length data →
  offsets_from next data !!! i = next + RaggedArray.buffer_len (take i data).
Proof.
  induction data as [|d data IH]; intros next i Hi; simpl in *; [lia|].
  destruct i as [|i]; simpl.
  - unfold RaggedArray.buffer_len. simpl. lia.
  - rewrite IH by lia. rewrite buffer_len_cons. lia.
Qed.

Lemma norm_recast_empty dt d : len_or_0 d = 0 → norm (recast np_astype dt d) = NaN.
Proof.
  destruct d as [src a| |]; simpl; try done.
  intros Ha. apply nil_length_inv in Ha as ->. unfold cast. by case_decide.
Qed.

Lemma norm_recast_nonempty dt d :
  len_or_0 d ≠ 0 → norm (recast np_astype dt d) = Arr dt (values_in np_astype dt d).
Proof.
  destruct d as [src a| |]; simpl; try done.
  intros Ha. pose proof (length_cast src dt a) as Hlen.
  destruct (cast np_astype src dt a) eqn:Hc; [|done].
  destruct a; [done|]. simpl in Hlen. lia.
Qed.

Lemma recast_has_dtype dt d : has_dtype dt d → recast np_astype dt d = d.
Proof. destruct d as [src a| |]; simpl; [|done|done]. intros ->. by rewrite cast_same. Qed.

Lemma fmap_recast_has_dtype dt l :
  Forall (has_dtype dt) l → recast np_astype dt <$> l = l.
Proof.
  induction 1 as [|d l Hd _ IH]; csimpl; [done|].
  by rewrite IH, recast_has_dtype.
Qed.

Lemma element_encoding dt data i d :
  data !! i = Some d →
  element (encoding np_astype dt data) i = norm (recast np_astype dt d).
Proof.
  intros Hd. pose proof (lookup_lt_Some _ _ _ Hd) as Hi.
  unfold element, stop_of, encoding. simpl.
  rewrite length_offsets_from, offsets_from_lookup by done. simpl.
  assert (take (S i) data = take i data ++ [d]) as Htake by by apply take_S_r.
  assert ((if decide (S i = length data) then length (flat_of np_astype dt data)
           else offsets_from 0 data !!! S i)
          = RaggedArray.buffer_len (take i data) + len_or_0 d) as ->.
  { case_decide as Hlast.
    - rewrite <- buffer_len_flat. rewrite <- (take_ge data (S i)) at 1 by lia.
      rewrite Htake, buffer_len_app. unfold RaggedArray.buffer_len. simpl. lia.
    - rewrite offsets_from_lookup by lia.
      rewrite Htake, buffer_len_app. unfold RaggedArray.buffer_len. simpl. lia. }
  case_decide as Hlen.
  - symmetry. apply norm_recast_empty. lia.
  - rewrite norm_recast_nonempty by lia. f_equal. unfold np_slice.
    assert (flat_of np_astype dt data
            = flat_of np_astype dt (take i data) ++ values_in np_astype dt d
                ++ flat_of np_astype dt (drop (S i) data)) as ->.
    { rewrite <- (take_drop_middle data i d Hd) at 1. by rewrite flat_of_app. }
    rewrite drop_app_length' by apply buffer_len_flat.
    rewrite take_app_length'; [done|]. rewrite <- len_or_0_values. lia.
Qed.

Lemma elements_encoding dt data :
  elements (encoding np_astype dt data) = norm ∘ recast np_astype dt <$> data.
Proof.
  apply list_eq. intros i. rewrite list_lookup_fmap.
  destruct (data !! i) as [d|] eqn:Hd; simpl.
  - rewrite lookup_elements.
    + f_equal. by apply element_encoding.
    + simpl. rewrite length_offsets_from. by eapply lookup_lt_Some.
  - apply lookup_ge_None. rewrite length_elements. simpl.
    rewrite length_offsets_from. by apply lookup_ge_None.
Qed.

Lemma elements_encoding_has_dtype dt data :
  Forall (has_dtype dt) data →
  elements (encoding np_astype dt data) = norm <$> data.
Proof.
  intros Hdt. rewrite elements_encoding, list_fmap_compose.
  by rewrite fmap_recast_has_dtype.
Qed.

Lemma len_encoding dt data :
  RaggedArray.__len__ (encoding np_astype dt data) = length data.
Proof. unfold RaggedArray.__len__. simpl. apply length_offsets_from. Qed.

(** ** Validation of a raw pair *)

Lemma no_invalid_inds (m : nat) (l : list nat) :
  existsb id ((λ s, m <? s) <$> l) = false ↔ Forall (λ s, s ≤ m) l.
Proof.
  induction l as [|s l IH]; csimpl.
  - split; [constructor|done].
  - rewrite orb_false_iff, IH, Forall_cons. unfold id.
    destruct (Nat.ltb_spec m s); split; intros [? ?]; split; (done || lia).
Qed.

Lemma validate_Ok_inv data :
  _validate_ragged_properties data = Ok () →
  ∃ s f, raw_start_indices data = Ndarray s ∧ kind s = kind_u ∧ ndim s = 1 ∧
         raw_flat_array data = Ndarray f ∧ ndim f = 1 ∧
         Forall (λ x, x ≤ length (elems f)) (elems s).
Proof.
  unfold _validate_ragged_properties.
  destruct (raw_start_indices data) as [|s]; [done|].
  case_bool_decide as Hk; simpl; [|done].
  destruct (Nat.eqb_spec (ndim s) 1) as [Hs|]; simpl; [|done].
  destruct (raw_flat_array data) as [|f]; [done|].
  destruct (Nat.eqb_spec (ndim f) 1) as [Hf|]; simpl; [|done].
  destruct (existsb id _) eqn:Hinv.
  - by destruct (np_bool_index _ _).
  - intros _. exists s, f. by rewrite <- no_invalid_inds.
Qed.

Lemma validate_dict_of start flat nbits dt :
  Forall (λ x, x ≤ length flat) start →
  _validate_ragged_properties (RaggedArray.dict_of start flat nbits dt) = Ok ().
Proof.
  intros Hall. unfold _validate_ragged_properties. simpl.
  by apply no_invalid_inds in Hall as ->.
Qed.

Lemma init_dict_dict_of start flat nbits dt :
  Forall (λ x, x ≤ length flat) start →
  RaggedArray.init_dict (RaggedArray.dict_of start flat nbits dt)
    = Ok (mkRaggedArray start flat nbits dt).
Proof.
  intros Hall. unfold RaggedArray.init_dict.
  by rewrite validate_dict_of.
Qed.

Lemma init_dict_InvariantA data r :
  RaggedArray.init_dict data = Ok r → InvariantA r.
Proof.
  unfold RaggedArray.init_dict. intros (u & Hv & Hr)%bind_Ok.
  destruct u. apply validate_Ok_inv in Hv as (s & f & Hs & _ & _ & Hf & _ & Hall).
  simpl in Hr. rewrite Hs, Hf in Hr. by injection Hr as <-.
Qed.

Lemma copy_Ok r deep : InvariantA r → RaggedArray.copy r deep = Ok r.
Proof.
  intros Hr. unfold RaggedArray.copy. rewrite init_dict_dict_of by done.
  by destruct r.
Qed.

(** ** Invariant A for the constructor on sequences *)

Lemma offsets_from_bound data : ∀ next,
  Forall (λ s, s ≤ next + RaggedArray.buffer_len data) (offsets_from next data).
Proof.
  induction data as [|d data IH]; intros next; simpl; [constructor|].
  rewrite buffer_len_cons. constructor; [lia|].
  eapply Forall_impl; [apply IH|]. simpl. intros; lia.
Qed.

Lemma InvariantA_encoding dt data : InvariantA (encoding np_astype dt data).
Proof.
  unfold InvariantA. simpl.
  rewrite <- buffer_len_flat. apply (offsets_from_bound data 0).
Qed.

Lemma InvariantA_init_seq data dtype r :
  RaggedArray.init_seq np_astype data dtype = Ok r → InvariantA r.
Proof. intros [_ ->]%init_seq_Ok_inv. apply InvariantA_encoding. Qed.

(** [norm] changes nothing but zero-length arrays and [None]. *)
Lemma norm_Arr_nonempty dt a : a ≠ [] → norm (Arr dt a) = Arr dt a.
Proof. by destruct a. Qed.

Lemma norm_missing d : missing d = true → norm d = NaN.
Proof. by destruct d. Qed.

Lemma norm_idemp d : norm (norm d) = norm d.
Proof. by destruct d as [? [|]| |]. Qed.

(** * C1: round trip *)


(** * C2: positional access *)

(** C2: for every container of length N and every integer index i, access
    counts a negative index from the end, fails with a bounds error outside
    [[-N, N)], and otherwise returns the value slice from [offsets[i]] to
    [offsets[i+1]] (to [len(values)] for the last position), or the missing
    sentinel when start and stop are equal. *)
Theorem C2_positional_access (r : RaggedArray) (i : Z) :
  RaggedArray.getitem_int r i = positional_access r i.
Proof.
  unfold positional_access. case_decide as Hi.
  - case_decide as Hneg.
    + replace i with (Z.of_nat (Z.to_nat (Z.of_nat (length (start_indices r)) + i))
                      - Z.of_nat (length (start_indices r)))%Z at 1 by lia.
      apply getitem_int_negative. lia.
    + replace i with (Z.of_nat (Z.to_nat i)) at 1 by lia.
      apply getitem_int_nonneg. lia.
  - apply getitem_int_out_of_bounds. lia.
Qed.

(** * Invariant A of the results *)

Lemma np_splice_length {A} (flat : list A) start stop a :
  start ≤ stop → stop ≤ length flat → length a = stop - start →
  length (np_splice flat start stop a) = length flat.
Proof.
  intros. unfold np_splice. rewrite !length_app, length_take, length_drop. lia.
Qed.

Lemma np_setslice_length dt fa start d fa' :
  np_setslice np_astype dt fa start (start + len_or_0 d) d = Ok fa' →
  start + len_or_0 d ≤ length fa →
  length fa' = length fa.
Proof.
  destruct d as [src a| |]; simpl.
  - intros [= <-] Hle. apply np_splice_length; [lia|done|].
    rewrite length_cast. unfold len_or_0. simpl. lia.
  - by destruct dt; intros [= <-].
  - by destruct dt; intros [= <-].
Qed.

Lemma np_setslice_value_length npc dt fa next v fa' :
  RaggedArray.np_setslice_value np_astype npc dt fa next
    (next + RaggedArray.value_len v) v = Ok fa' →
  next + RaggedArray.value_len v ≤ length fa →
  length fa' = length fa.
Proof.
  destruct v as [d|r]; simpl.
  - intros Hset Hle. by eapply (np_setslice_length dt fa next d).
  - intros (a & _ & Ha)%bind_Ok Hle.
    destruct (Nat.eqb_spec (length a) (next + RaggedArray.__len__ r - next)); [|done].
    injection Ha as <-. apply np_splice_length; lia.
Qed.

Lemma populate_values_inv npc dt bound data : ∀ i next si fa si' fa',
  RaggedArray.populate_values np_astype npc dt data i next si fa = Ok (si', fa') →
  next + sum_list (RaggedArray.value_len <$> data) ≤ length fa →
  next + sum_list (RaggedArray.value_len <$> data) ≤ bound →
  Forall (λ s, s ≤ bound) si →
  Forall (λ s, s ≤ bound) si' ∧ length fa' = length fa.
Proof.
  induction data as [|v rest IH]; intros i next si fa si' fa'; csimpl.
  - by intros [= <- <-].
  - intros (fa1 & Hset & Hrest)%bind_Ok Hfa Hbound Hsi.
    pose proof (np_setslice_value_length _ _ _ _ _ _ Hset) as Hlen.
    apply IH in Hrest as [? ?].
    + split; [done|]. rewrite <- Hlen; [done|lia].
    + rewrite Hlen; lia.
    + lia.
    + apply Forall_insert; [done|lia].
Qed.

Lemma init_values_InvariantA npd npc data r :
  RaggedArray.init_values np_astype npd npc data = Ok r → InvariantA r.
Proof.
  unfold RaggedArray.init_values. intros ([si fa] & Hpop & [= <-])%bind_Ok.
  eapply (populate_values_inv _ _ (sum_list (RaggedArray.value_len <$> data)))
    in Hpop as [Hsi Hfa].
  - unfold InvariantA. simpl. by rewrite Hfa, length_replicate.
  - by rewrite length_replicate.
  - done.
  - apply Forall_replicate. lia.
Qed.

Lemma fillna_InvariantA npd npc r value r' :
  RaggedArray.fillna np_astype npd npc r value = Ok r' → InvariantA r'.
Proof.
  unfold RaggedArray.fillna. intros ([nv|] & _ & Hr)%bind_Ok.
  - by eapply init_values_InvariantA.
  - by eapply init_dict_InvariantA.
Qed.

Lemma getitem_slice_InvariantA r s r' :
  RaggedArray.getitem_slice np_astype r s = Ok r' → InvariantA r'.
Proof.
  unfold RaggedArray.getitem_slice.
  intros (idx & _ & (data & _ & Hr)%bind_Ok)%bind_Ok. by eapply InvariantA_init_seq.
Qed.

Lemma getitem_mask_InvariantA r m r' :
  RaggedArray.getitem_mask np_astype r m = Ok r' → InvariantA r'.
Proof.
  unfold RaggedArray.getitem_mask. intros (data & _ & Hr)%bind_Ok.
  by eapply InvariantA_init_seq.
Qed.

Lemma take_InvariantA r indices allow_fill fill_value r' :
  RaggedArray.take np_astype r indices allow_fill fill_value = Ok r' →
  InvariantA r'.
Proof.
  unfold RaggedArray.take. destruct allow_fill.
  - destruct (negb _); [done|]. intros (data & _ & Hr)%bind_Ok.
    by eapply InvariantA_init_seq.
  - destruct (_ && _); [done|]. intros (data & _ & Hr)%bind_Ok.
    by eapply InvariantA_init_seq.
Qed.

Lemma concat_InvariantA to_concat r :
  RaggedArray._concat_same_type np_astype to_concat = Ok r → InvariantA r.
Proof.
  unfold RaggedArray._concat_same_type. destruct to_concat; [done|].
  apply init_dict_InvariantA.
Qed.

Lemma shift_InvariantA r periods fill_value r' :
  RaggedArray.shift np_astype r periods fill_value = Ok r' → InvariantA r'.
Proof.
  unfold RaggedArray.shift. destruct (_ || _).
  - apply init_dict_InvariantA.
  - intros (empty & _ & Hr)%bind_Ok. destruct (0 <? periods)%Z.
    + apply bind_Ok in Hr as (b & _ & Hc). by eapply concat_InvariantA.
    + apply bind_Ok in Hr as (a & _ & Hc). by eapply concat_InvariantA.
Qed.

(** * Concatenation *)

Lemma fmap_add_0 (l : list nat) : (λ s, s + 0) <$> l = l.
Proof.
  rewrite <- (list_fmap_id l) at 2. apply list_fmap_ext. intros; simpl; lia.
Qed.

Lemma np_min_uint_nbits_ge v : (8 ≤ np_min_uint_nbits v)%Z.
Proof. unfold np_min_uint_nbits. repeat case_match; lia. Qed.

Lemma sum_nbits_ge nbits offset : (8 ≤ sum_nbits nbits offset)%Z.
Proof. unfold sum_nbits. pose proof (np_min_uint_nbits_ge offset). lia. Qed.

Lemma iinfo_max_mono m n : (0 ≤ m ≤ n)%Z → (iinfo_max m ≤ iinfo_max n)%Z.
Proof.
  intros. unfold iinfo_max.
  assert (2 ^ m ≤ 2 ^ n)%Z by (apply Z.pow_le_mono_r; lia). lia.
Qed.

Lemma np_add_scalar_fst nbits array offset :
  fst (np_add_scalar nbits array offset) = sum_nbits nbits offset.
Proof. done. Qed.

Lemma np_add_scalar_no_wrap nbits array offset :
  no_wrap nbits array offset →
  snd (np_add_scalar nbits array offset) = (λ s, s + offset) <$> array.
Proof.
  intros Hfit. unfold np_add_scalar. simpl. fold (sum_nbits nbits offset).
  apply Forall_fmap_ext_1. eapply Forall_impl; [exact Hfit|].
  intros s Hs. simpl in *. unfold iinfo_max in Hs.
  rewrite Z.mod_small by lia. lia.
Qed.

(** Sums of at most 255 stay within every width. *)
Lemma no_wrap_uint8 nbits array offset :
  Forall (λ s, fits_uint8 (s + offset)) array → no_wrap nbits array offset.
Proof.
  intros Hall. eapply Forall_impl; [exact Hall|]. intros s Hs. simpl.
  unfold fits_uint8 in Hs.
  pose proof (iinfo_max_mono 8 (sum_nbits nbits offset)) as Hmono.
  pose proof (sum_nbits_ge nbits offset). lia.
Qed.




Lemma concat_two a b :
  InvariantA a → InvariantA b →
  no_wrap (start_nbits a) (start_indices a) 0 →
  no_wrap (start_nbits b) (start_indices b) (length (flat_array a)) →
  RaggedArray._concat_same_type np_astype [a; b] = Ok (appended np_astype a b).
Proof.
  intros Ha Hb Hwa Hwb. unfold RaggedArray._concat_same_type.
  cbn -[np_add_scalar np_result_type cast RaggedArray.init_dict].
  rewrite !app_nil_r, !np_add_scalar_no_wrap, fmap_add_0 by done.
  apply init_dict_dict_of.
  rewrite length_app, !length_cast. apply Forall_app. split.
  - eapply Forall_impl; [exact Ha|]. simpl. lia.
  - apply Forall_fmap. eapply Forall_impl; [exact Hb|]. simpl. lia.
Qed.

Lemma InvariantA_appended a b :
  InvariantA a → InvariantA b → InvariantA (appended np_astype a b).
Proof.
  intros Ha Hb. unfold InvariantA, appended. simpl.
  rewrite length_app, !length_cast. apply Forall_app. split.
  - eapply Forall_impl; [exact Ha|]. simpl. lia.
  - apply Forall_fmap. eapply Forall_impl; [exact Hb|]. simpl. lia.
Qed.

(** Within Invariant A, containers that hold at most 255 values in all are
    concatenated without any sum wrapping around. *)
Lemma concat_two_uint8 a b :
  InvariantA a → InvariantA b →
  fits_uint8 (length (flat_array a) + length (flat_array b)) →
  RaggedArray._concat_same_type np_astype [a; b] = Ok (appended np_astype a b).
Proof.
  intros Ha Hb Hfits. apply concat_two; [done|done| |].
  - apply no_wrap_uint8. eapply Forall_impl; [exact Ha|].
    unfold fits_uint8 in *. simpl. intros; lia.
  - apply no_wrap_uint8. eapply Forall_impl; [exact Hb|].
    unfold fits_uint8 in *. simpl. intros; lia.
Qed.

(** [norm] changes nothing in a list without zero-length arrays and [None]. *)
Lemma fmap_norm_id (l : list datum) :
  Forall (λ d, ¬ zero_length d ∧ d ≠ PyNone) l → norm <$> l = l.
Proof.
  induction 1 as [|d l [Hz ?] _ IH]; csimpl; [done|].
  rewrite IH. f_equal. destruct d as [? [|]| |]; simpl in *; done.
Qed.

(** A container within Invariant A whose offsets do not decrease never
    materialises a zero-length array: an empty range reads as nan, any other
    range holds at least one value. *)
Lemma monotone_no_empty_array c :
  InvariantA c →
  (∀ j, S j < length (start_indices c) →
        start_indices c !!! j ≤ start_indices c !!! S j) →
  Forall (λ d, ¬ zero_length d) (elements c).
Proof.
  intros Hinv Hmono. unfold elements. apply Forall_fmap, Forall_seq.
  intros j [_ Hj]. simpl in *. unfold element, stop_of.
  assert (start_indices c !!! j ≤ length (flat_array c)) as Hstart.
  { eapply (Forall_lookup_total_1 _ _ j) in Hinv; [done|lia]. }
  assert (∀ s e, s < e → e ≤ length (flat_array c) →
            ¬ zero_length (Arr (flat_dtype c) (np_slice (flat_array c) s e))) as Hne.
  { intros s e Hse He. simpl.
    destruct (np_slice (flat_array c) s e) eqn:Hnil; [|tauto].
    apply (f_equal length) in Hnil.
    unfold np_slice in Hnil. rewrite length_take, length_drop in Hnil.
    simpl in Hnil. lia. }
  repeat case_decide; try (simpl; tauto).
  - apply Hne; lia.
  - specialize (Hmono j ltac:(lia)).
    assert (start_indices c !!! S j ≤ length (flat_array c)).
    { eapply (Forall_lookup_total_1 _ _ (S j)) in Hinv; [done|lia]. }
    apply Hne; lia.
Qed.

(** ** Re-encoding elements of a container *)

(** A sequence of arrays of dtype [dt] and nans is re-encoded with that
    dtype unchanged, but for zero-length arrays, when [dt] takes the missing
    items; it is refused at the first nan when it does not. *)
Lemma init_seq_same_dtype dt data :
  Forall (has_dtype dt) data → encodable dt data →
  RaggedArray.init_seq np_astype data (Some dt) = Ok (encoding np_astype dt data) ∧
  elements (encoding np_astype dt data) = norm <$> data.
Proof.
  intros Hdt Henc. split.
  - by apply (init_seq_spec data (Some dt)).
  - by apply elements_encoding_has_dtype.
Qed.

Lemma init_seq_nan_raises dt data :
  Forall (λ d, d ≠ PyNone) data → ¬ encodable dt data →
  RaggedArray.init_seq np_astype data (Some dt) = Raise ValueError_nan_to_integer.
Proof.
  intros Hnone Hnot.
  destruct (init_seq_raises data (Some dt) Hnot) as (d & Hd & Hmiss & ->).
  eapply Forall_forall in Hnone; [|done]. by destruct d.
Qed.

Lemma init_seq_nan_raises_None data :
  Forall (λ d, d ≠ PyNone) data → ¬ encodable (RaggedArray.infer_dtype data) data →
  RaggedArray.init_seq np_astype data None = Raise ValueError_nan_to_integer.
Proof.
  intros Hnone Hnot.
  destruct (init_seq_raises data None Hnot) as (d & Hd & Hmiss & ->).
  eapply Forall_forall in Hnone; [|done]. by destruct d.
Qed.

Lemma elements_not_None c : Forall (λ d, d ≠ PyNone) (elements c).
Proof.
  apply Forall_forall. intros d (j & -> & _)%list_elem_of_fmap.
  apply element_not_None.
Qed.

(** * C10: selection by a boolean mask *)

Lemma select_true_cons {A} (x : A) l m mask :
  select_true (x :: l) (m :: mask) =
    if m then x :: select_true l mask else select_true l mask.
Proof.
  unfold select_true. simpl. rewrite filter_cons. simpl.
  destruct m; case_decide; done.
Qed.

Lemma select_true_elem {A} (l : list A) (m : list bool) x :
  x ∈ select_true l m → x ∈ l.
Proof.
  unfold select_true.
  intros ([y b] & -> & [_ Hy]%list_elem_of_filter)%list_elem_of_fmap. simpl.
  by eapply elem_of_zip_l.
Qed.



Lemma drop_elements r i :
  i < length (start_indices r) →
  drop i (elements r) = element r i :: drop (S i) (elements r).
Proof.
  intros Hi. apply drop_S. by apply lookup_elements.
Qed.



(** * C7: take with fill *)

Lemma traverse_first_error {A B} (f : A → result B) (l : list A) :
  (∃ x, x ∈ l ∧ ¬ is_Ok (f x)) →
  ∃ x e, x ∈ l ∧ f x = Raise e ∧ traverse f l = Raise e.
Proof.
  induction l as [|x l IH]; intros (y & Hy & Hfy).
  - by apply elem_of_nil in Hy.
  - simpl. destruct (f x) as [b|e] eqn:Hfx.
    + destruct IH as (z & e & Hz & Hfz & Htr).
      * apply elem_of_cons in Hy as [->|Hy]; [|by eauto].
        destruct Hfy. rewrite Hfx. by eexists.
      * exists z, e. split; [by right|]. split; [done|]. simpl. by rewrite Htr.
    + exists x, e. split; [by left|]. by split.
Qed.



(** * C9: unique *)

Lemma first_occurrences_after_elem before l x :
  x ∈ first_occurrences_after before l ↔ x ∈ l ∧ x ∉ before.
Proof.
  revert before. induction l as [|y l IH]; intros before; simpl.
  - split; [by intros ?%elem_of_nil|by intros [?%elem_of_nil _]].
  - case_decide as Hy.
    + rewrite IH, !elem_of_cons. intuition congruence.
    + rewrite !elem_of_cons, IH, !elem_of_cons.
      destruct (decide (x = y)); intuition congruence.
Qed.

Lemma first_occurrences_after_NoDup before l :
  NoDup (first_occurrences_after before l).
Proof.
  revert before. induction l as [|y l IH]; intros before; simpl.
  - constructor.
  - case_decide; [apply IH|]. constructor; [|apply IH].
    rewrite first_occurrences_after_elem, elem_of_cons. intuition congruence.
Qed.

Lemma first_occurrences_elem l x : x ∈ first_occurrences l ↔ x ∈ l.
Proof.
  unfold first_occurrences. rewrite first_occurrences_after_elem.
  split; [by intros [? _]|]. intros ?. split; [done|]. by intros ?%elem_of_nil.
Qed.

Lemma first_occurrences_Forall (P : datum → Prop) l :
  Forall P l → Forall P (first_occurrences l).
Proof.
  intros Hl. apply Forall_forall. intros x Hx. rewrite first_occurrences_elem in Hx.
  eapply Forall_forall in Hl; [done|exact Hx].
Qed.

(** On values that are not nan, [==] is equality. *)
Lemma value_eqb_true x y :
  RaggedArray.value_eqb x y = true ↔ x = y ∧ x ≠ VNaN.
Proof.
  destruct x as [a|], y as [b|]; simpl; try (split; [done|by intros [? ?]]).
  rewrite Z.eqb_eq. split; [by intros ->|by intros [[= ->] _]].
Qed.

Lemma all_equal_true a : ∀ b,
  RaggedArray.all_equal a b = true ↔ a = b ∧ VNaN ∉ a.
Proof.
  induction a as [|x a IH]; intros [|y b]; simpl.
  - split; [intros _; split; [done|apply not_elem_of_nil]|done].
  - split; [done|by intros [? _]].
  - split; [done|by intros [? _]].
  - rewrite andb_true_iff, value_eqb_true, IH, not_elem_of_cons.
    split.
    + intros [[-> ?] [-> ?]]. split; [done|]. split; [congruence|done].
    + intros [[= -> ->] [? ?]]. split; split; (done || congruence).
Qed.

Lemma np_array_equal_true dx a dy b :
  RaggedArray.np_array_equal (Arr dx a) (Arr dy b) = true ↔ a = b ∧ VNaN ∉ a.
Proof.
  simpl. rewrite andb_true_iff, all_equal_true, bool_decide_eq_true.
  split; [by intros [_ ?]|]. intros [-> ?]. done.
Qed.

(** On items of one dtype that hold no nan, two entries are the same key
    exactly when the items are equal. *)
Lemma same_key_spec dt x y :
  has_dtype dt x → has_dtype dt y → nan_free x →
  RaggedArray.same_key (RaggedArray.ragged_or_nan x) (RaggedArray.ragged_or_nan y)
    = bool_decide (x = y).
Proof.
  intros Hx Hy Hnan.
  destruct x as [dx a| |], y as [dy b| |]; try done.
  simpl in Hx, Hy. subst dx dy. unfold nan_free in Hnan. simpl in Hnan.
  change (RaggedArray.same_key _ _)
    with (RaggedArray.np_array_equal (Arr dt a) (Arr dt b)).
  apply eq_true_iff_eq. rewrite np_array_equal_true, bool_decide_eq_true.
  split; [by intros [-> _]|]. by intros [= ->].
Qed.

Lemma array_or_nan_ragged_or_nan x :
  RaggedArray.array_or_nan (RaggedArray.ragged_or_nan x) = x.
Proof. by destruct x. Qed.

Lemma fmap_array_or_nan_ragged_or_nan (l : list datum) :
  RaggedArray.array_or_nan <$> (RaggedArray.ragged_or_nan <$> l) = l.
Proof.
  rewrite <- list_fmap_compose. etransitivity; [|apply list_fmap_id].
  apply list_fmap_ext. intros; simpl. apply array_or_nan_ragged_or_nan.
Qed.

(** Equal entries have equal hashes, as a hash table requires. *)
Lemma RaggedElement_hash_eq dx a dy b :
  RaggedArray.RaggedElement__eq__ (RaggedArray.RaggedElement (Arr dx a))
                                  (RaggedArray.RaggedElement (Arr dy b)) = true →
  RaggedArray.RaggedElement__hash__ (Arr dx a) = RaggedArray.RaggedElement__hash__ (Arr dy b).
Proof.
  unfold RaggedArray.RaggedElement__eq__. by intros [-> _]%np_array_equal_true.
Qed.

Lemma unique_loop_spec dt l : ∀ table before,
  Forall (λ d, has_dtype dt d ∧ nan_free d) l →
  (∀ x, has_dtype dt x → nan_free x →
        existsb (RaggedArray.same_key (RaggedArray.ragged_or_nan x)) table = true
        ↔ x ∈ before) →
  RaggedArray.unique_loop table (RaggedArray.ragged_or_nan <$> l)
    = RaggedArray.ragged_or_nan <$> first_occurrences_after before l.
Proof.
  induction l as [|x l IH]; intros table before Hl Hinv; csimpl; [done|].
  apply Forall_cons in Hl as [[Hx Hxn] Hl].
  destruct (existsb _ table) eqn:Hex.
  - rewrite decide_True by by apply Hinv.
    apply IH; [done|]. intros y Hy Hyn. rewrite Hinv, elem_of_cons by done.
    split; [auto|]. intros [->|?]; [|done]. by apply Hinv.
  - rewrite decide_False by (rewrite <- Hinv by done; congruence).
    csimpl. f_equal. apply IH; [done|]. intros y Hy Hyn. simpl.
    rewrite orb_true_iff, Hinv, elem_of_cons by done.
    rewrite (same_key_spec dt), bool_decide_eq_true by done.
    done.
Qed.

Lemma as_ragged_element_array_spec c :
  RaggedArray._as_ragged_element_array c = Ok (RaggedArray.ragged_or_nan <$> elements c).
Proof.
  unfold RaggedArray._as_ragged_element_array, elements, RaggedArray.__len__.
  rewrite <- list_fmap_compose. apply traverse_Ok.
  intros i Hi%elem_of_seq. rewrite getitem_int_nonneg by lia. done.
Qed.

(** The elements of a container whose buffer holds no nan hold none. *)
Lemma element_nan_free c j : VNaN ∉ flat_array c → nan_free (element c j).
Proof.
  intros Hnan. unfold element, nan_free. case_decide; simpl.
  - apply not_elem_of_nil.
  - intros Hin. apply Hnan. unfold np_slice in Hin.
    by eapply subseteq_drop, subseteq_take.
Qed.

Lemma elements_nan_free c :
  VNaN ∉ flat_array c →
  Forall (λ d, has_dtype (flat_dtype c) d ∧ nan_free d) (elements c).
Proof.
  intros Hnan. apply Forall_forall. intros d (j & -> & _)%list_elem_of_fmap.
  split; [apply element_has_dtype|by apply element_nan_free].
Qed.

Lemma unique_spec c :
  VNaN ∉ flat_array c →
  RaggedArray.unique np_astype c
    = RaggedArray.init_seq np_astype (first_occurrences (elements c)) None.
Proof.
  intros Hnan. unfold RaggedArray.unique. rewrite as_ragged_element_array_spec.
  rewrite bind_Ok_l.
  unfold RaggedArray.pandas_unique, RaggedArray._from_sequence.
  rewrite (unique_loop_spec (flat_dtype c) _ [] []).
  - by rewrite fmap_array_or_nan_ragged_or_nan.
  - by apply elements_nan_free.
  - intros x _ _. simpl. split; [done|by intros ?%elem_of_nil].
Qed.

(** The dtype inferred for a sequence of arrays of dtype [dt] and missing
    items. *)
Lemma non_missing_dtypes_has_dtype dt l :
  Forall (has_dtype dt) l → Forall (λ d, d = dt) (RaggedArray.non_missing_dtypes l).
Proof.
  unfold RaggedArray.non_missing_dtypes.
  induction 1 as [|d l Hd _ IH]; csimpl; [constructor|].
  destruct d as [src a| |]; simpl in *; [|done|done]. by constructor.
Qed.

Lemma non_missing_dtypes_nil l :
  RaggedArray.non_missing_dtypes l = [] ↔ Forall (λ d, missing d = true) l.
Proof.
  unfold RaggedArray.non_missing_dtypes.
  induction l as [|d l IH]; csimpl; [by split; [constructor|]|].
  rewrite Forall_cons. destruct d as [src a| |]; simpl.
  - split; [done|by intros [? _]].
  - rewrite IH. tauto.
  - rewrite IH. tauto.
Qed.

Lemma np_result_type_same dt dts :
  dts ≠ [] → Forall (λ d, d = dt) dts → np_result_type dts = dt.
Proof.
  intros Hne Hall. unfold np_result_type. destruct dts as [|d dts]; [done|].
  apply Forall_cons in Hall as [-> Hall].
  destruct dt; case_decide as Hin; try done.
  - apply elem_of_cons in Hin as [?|Hin]; [done|].
    by eapply Forall_forall in Hall.
  - destruct Hin. left.
Qed.

Lemma infer_dtype_has_dtype dt l :
  Forall (has_dtype dt) l →
  (RaggedArray.infer_dtype l = dt ∧ ¬ Forall (λ d, missing d = true) l) ∨
  (RaggedArray.infer_dtype l = float64 ∧ Forall (λ d, missing d = true) l).
Proof.
  intros Hdt. unfold RaggedArray.infer_dtype.
  destruct (RaggedArray.non_missing_dtypes l) as [|d dts] eqn:Hnm.
  - right. split; [done|]. by apply non_missing_dtypes_nil.
  - left. split.
    + rewrite <- Hnm. apply np_result_type_same; [by rewrite Hnm|].
      by apply non_missing_dtypes_has_dtype.
    + intros Hall%non_missing_dtypes_nil. congruence.
Qed.

(** What [_from_sequence] makes of a sequence of elements of a container:
    they are re-encoded unchanged, but for zero-length arrays, when the
    dtype of the container is float64, when none is missing, or when all
    are; the re-encoding raises when the dtype is int64 and the sequence
    holds a missing element beside an array. *)
Lemma from_sequence_elements dt l :
  Forall (has_dtype dt) l → Forall (λ d, d ≠ PyNone) l →
  (dt = float64 ∨ NaN ∉ l ∨ Forall (λ d, d = NaN) l →
   ∃ r, RaggedArray.init_seq np_astype l None = Ok r ∧
        RaggedArray.__len__ r = length l ∧
        elements r = norm <$> l) ∧
  (dt = int64 → NaN ∈ l → ¬ Forall (λ d, d = NaN) l →
   RaggedArray.init_seq np_astype l None = Raise ValueError_nan_to_integer).
Proof.
  intros Hdt Hnone.
  assert (∀ d, d ∈ l → missing d = true → d = NaN) as Hmiss.
  { intros d Hd Hm. eapply Forall_forall in Hnone; [|done]. by destruct d. }
  set (dt' := RaggedArray.infer_dtype l).
  split.
  - intros Hok.
    assert (encodable dt' l ∧ Forall (has_dtype dt') l) as [Henc Hdt'].
    { destruct (infer_dtype_has_dtype dt l Hdt) as [[Hinf Hnm]|[Hinf Hm]];
        fold dt' in Hinf; rewrite Hinf.
      - split; [|done]. destruct Hok as [->|[Hnan|Hall]].
        + by left.
        + right. apply Forall_forall. intros d Hd.
          destruct (missing d) eqn:Hm; [|done].
          apply Hmiss in Hm; [|done]. by subst d.
        + destruct Hnm. eapply Forall_impl; [exact Hall|]. by intros ? ->.
      - split; [by left|]. eapply Forall_impl; [exact Hm|].
        intros d Hd. by destruct d. }
    exists (encoding np_astype dt' l).
    split; [by apply (init_seq_spec l None)|].
    split; [apply len_encoding|]. by apply elements_encoding_has_dtype.
  - intros -> Hnan Hnot.
    assert (dt' = int64) as Hdt'.
    { destruct (infer_dtype_has_dtype int64 l Hdt) as [[Hinf _]|[_ Hm]]; [done|].
      destruct Hnot. apply Forall_forall. intros d Hd.
      apply Hmiss; [done|]. by eapply Forall_forall in Hm. }
    apply init_seq_nan_raises_None; [done|].
    fold dt'. rewrite Hdt'. intros [?|Hall]; [done|].
    eapply Forall_forall in Hall; [|exact Hnan]. done.
Qed.


(** * C8: construction from a raw pair *)

Lemma validate_well_formed data :
  well_formed data → _validate_ragged_properties data = Ok ().
Proof.
  intros (s & f & Hs & Hk & Hns & Hf & Hnf & Hall).
  unfold _validate_ragged_properties. rewrite Hs, Hf, Hk, Hns, Hnf. simpl.
  by apply no_invalid_inds in Hall as ->.
Qed.

Lemma raw_pair_accepted_iff data :
  is_Ok (RaggedArray.init_dict data) ↔ well_formed data.
Proof.
  split.
  - intros [r (u & Hv & _)%bind_Ok]. destruct u. by apply validate_Ok_inv.
  - intros Hwf. unfold RaggedArray.init_dict. rewrite (validate_well_formed _ Hwf).
    destruct Hwf as (s & f & -> & _ & _ & -> & _). by eexists.
Qed.

(** An accepted pair is adopted as it is: same elements in the same order,
    and, on the heap, the very same two buffers. *)
Lemma raw_pair_adopted start flat nbits dt r :
  RaggedArray.init_dict (RaggedArray.dict_of start flat nbits dt) = Ok r →
  r = mkRaggedArray start flat nbits dt.
Proof. by intros (? & _ & [= <-])%bind_Ok. Qed.

Lemma raw_pair_zero_copy start_id flat_id h o h' :
  Heap.init_dict start_id flat_id h = Ok (o, h') →
  o = Heap.mkObject start_id flat_id ∧ h' = h.
Proof. by intros (? & _ & [= <- <-])%bind_Ok. Qed.

(** With at most ten offsets the error lists every offending offset. *)
Lemma np_bool_index_full {A} (a : list A) (m : list bool) :
  length m = length a → np_bool_index a m = Ok (select_true a m).
Proof. intros Hl. unfold np_bool_index. by rewrite decide_True. Qed.

Lemma raw_pair_offending_listed start flat nbits dt :
  length start ≤ 10 →
  ¬ Forall (λ x, x ≤ length flat) start →
  RaggedArray.init_dict (RaggedArray.dict_of start flat nbits dt)
    = Raise (ValueError_invalid_start (length flat)
               (select_true start ((λ s, length flat <? s) <$> start))).
Proof.
  intros Hlen Hbad. unfold RaggedArray.init_dict, _validate_ragged_properties. simpl.
  destruct (existsb id _) eqn:Hex.
  - rewrite firstn_all2 by (rewrite length_fmap; lia).
    rewrite np_bool_index_full by by rewrite length_fmap.
    done.
  - by apply no_invalid_inds in Hex.
Qed.

(** C8, failing input: the raw pair below is malformed, its eleventh offset
    (5) exceeds the length of the values buffer (0).  The constructor should
    fail with the invariant-violation error that names the offending offset.
    It truncates the mask of offending positions to ten entries before it
    indexes the eleven offsets with it, so that numpy raises an index error
    about the mask and no offending offset is reported. *)
Theorem C8_raw_pair_offending_offsets_lost :
  let data := RaggedArray.dict_of [0; 0; 0; 0; 0; 0; 0; 0; 0; 0; 5] [] 8 float64 in
  ¬ well_formed data ∧
  _validate_ragged_properties data = Raise (IndexError_boolean_index 11 10) ∧
  RaggedArray.init_dict data = Raise (IndexError_boolean_index 11 10).
Proof.
  split; [|by split].
  intros [r Hr]%raw_pair_accepted_iff. discriminate Hr.
Qed.

(** * C5: shift *)

Lemma offsets_from_app xs ys : ∀ n,
  offsets_from n (xs ++ ys)
    = offsets_from n xs ++ offsets_from (n + RaggedArray.buffer_len xs) ys.
Proof.
  induction xs as [|x xs IH]; intros n; simpl.
  - unfold RaggedArray.buffer_len. simpl. by rewrite Nat.add_0_r.
  - rewrite IH, buffer_len_cons. do 3 f_equal. lia.
Qed.

Lemma offsets_from_shift ys : ∀ n k,
  (λ s, s + k) <$> offsets_from n ys = offsets_from (n + k) ys.
Proof.
  induction ys as [|y ys IH]; intros n k; csimpl; [done|].
  rewrite IH. do 2 f_equal. lia.
Qed.

Lemma cast_nil src dst : cast np_astype src dst [] = [].
Proof. unfold cast. by case_decide. Qed.




(** The dtype of what is stacked from two buffers of one dtype. *)
Lemma np_result_type_pair dt : np_result_type [dt; dt] = dt.
Proof. by destruct dt. Qed.




(** *** Slices that keep the head or the tail *)

Lemma py_range_step1 (a b : Z) :
  RaggedArray.py_range a b 1 = (λ k, (a + Z.of_nat k)%Z) <$> seq 0 (Z.to_nat (b - a)).
Proof.
  unfold RaggedArray.py_range. simpl.
  destruct (Z.ltb_spec a b).
  - rewrite Z.div_1_r. replace (b - a - 1 + 1)%Z with (b - a)%Z by lia.
    apply list_fmap_ext. intros; lia.
  - by replace (Z.to_nat (b - a)) with 0 by lia.
Qed.






(** *** The shifted sequence *)




Lemma norm_fill_value fill_value :
  norm (match fill_value with PyNone => NaN | v => v end) = norm fill_value.
Proof. by destruct fill_value. Qed.



(** *** The two containers that [shift] concatenates *)




Lemma encodable_sublist dt l l' :
  l' ⊆ l → encodable dt l → encodable dt l'.
Proof.
  intros Hsub [->|Hall]; [by left|]. right.
  apply Forall_forall. intros d Hd. eapply Forall_forall in Hall; [done|].
  by apply Hsub.
Qed.









(** *** Objects and their buffers *)

Lemma heap_validate h self c :
  Heap.contents h self = Some c → InvariantA c →
  _validate_ragged_properties
    (Heap.raw_of h (Heap.start_indices_id self) (Heap.flat_array_id self)) = Ok ().
Proof.
  unfold Heap.contents, Heap.raw_of, InvariantA.
  destruct (h !! Heap.start_indices_id self) as [[nbits s|? ?]|]; try done.
  destruct (h !! Heap.flat_array_id self) as [f|]; [|done].
  intros [= <-] Hall. simpl in Hall. unfold _validate_ragged_properties.
  simpl. by apply no_invalid_inds in Hall as ->.
Qed.

Lemma heap_copy_shallow h self c :
  Heap.contents h self = Some c → InvariantA c →
  Heap.copy self false h = Ok (self, h).
Proof.
  intros Hc Hinv. unfold Heap.copy, Heap.init_dict.
  rewrite (heap_validate h self c) by done. by destruct self.
Qed.




(** A deep copy is within reach of the class: [copy(deep=True)]. *)
Lemma heap_copy_deep h self c :
  Heap.contents h self = Some c → InvariantA c →
  ∃ o' h', Heap.copy self true h = Ok (o', h') ∧ Heap.deep_copy_of h self h' o'.
Proof.
  intros Hc Hinv. unfold Heap.copy, Heap.array_copy, Heap.new_array.
  pose proof Hc as Hc'. unfold Heap.contents in Hc'.
  destruct (h !! Heap.start_indices_id self) as [[nbits s|? ?]|] eqn:Hs; try done.
  destruct (h !! Heap.flat_array_id self) as [f|] eqn:Hf; [|done].
  injection Hc' as <-. simpl.
  assert (Heap.contents ((h ++ [f]) ++ [Heap.UIntArray nbits s])
            (Heap.mkObject (length (h ++ [f])) (length h))
          = Some (mkRaggedArray s (Heap.buffer_values f) nbits (Heap.buffer_dtype f)))
    as Hnew.
  { unfold Heap.contents. simpl.
    rewrite lookup_app_r, Nat.sub_diag by done. simpl.
    rewrite lookup_app_l by (rewrite length_app; simpl; lia).
    by rewrite lookup_app_r, Nat.sub_diag by done. }
  pose proof (heap_validate _ _ _ Hnew Hinv) as Hv. simpl in Hv.
  rewrite (lookup_app_l_Some _ _ _ _ Hs). simpl.
  unfold Heap.init_dict. rewrite Hv.
  eexists _, _. split; [done|]. split.
  - by rewrite Hnew, Hc.
  - unfold Heap.shares_buffer. simpl.
    apply lookup_lt_Some in Hs, Hf. rewrite length_app. simpl. lia.
Qed.



(** * Further properties of the class *)

(** ** Missing values and positional access *)

Lemma stop_indices_lookup c j :
  j < length (start_indices c) →
  (drop 1 (start_indices c) ++ [length (flat_array c)]) !! j = Some (stop_of c j).
Proof.
  intros Hj. unfold stop_of. case_decide as Hlast.
  - rewrite lookup_app_r by (rewrite length_drop; lia).
    rewrite length_drop. by replace (j - (length (start_indices c) - 1)) with 0 by lia.
  - rewrite lookup_app_l by (rewrite length_drop; lia).
    rewrite lookup_drop. apply list_lookup_lookup_total_lt. lia.
Qed.

Lemma isna_elements (c : RaggedArray) :
  RaggedArray.isna c = (λ d, bool_decide (d = NaN)) <$> elements c.
Proof.
  apply list_eq. intros j. unfold RaggedArray.isna.
  rewrite !list_lookup_fmap, lookup_zip_with.
  destruct (decide (j < length (start_indices c))) as [Hj|Hj].
  - rewrite stop_indices_lookup, lookup_elements by done. simpl.
    rewrite (list_lookup_lookup_total_lt (start_indices c) j) by done. simpl.
    f_equal. unfold element.
    destruct (Z.eqb_spec (Z.of_nat (stop_of c j) - Z.of_nat (start_indices c !!! j)) 0);
      case_decide; try lia.
    + by rewrite bool_decide_eq_true_2.
    + by rewrite bool_decide_eq_false_2.
  - rewrite (lookup_ge_None_2 (elements c)) by (rewrite length_elements; lia).
    rewrite (lookup_ge_None_2 (start_indices c)) by lia. simpl.
    by destruct (_ !! j).
Qed.

(** X1: [isna()] has one entry per position, and its entry at position
    [j] is [True] exactly when [self[j]] materialises as nan. *)
Theorem X1_isna_flags_nan_positions (c : RaggedArray) :
  length (RaggedArray.isna c) = RaggedArray.__len__ c ∧
  ∀ j : nat,
    RaggedArray.isna c !! j = Some true
    ↔ RaggedArray.getitem_int c (Z.of_nat j) = Ok NaN.
Proof.
  rewrite isna_elements. split.
  - by rewrite length_fmap, length_elements.
  - intros j. rewrite list_lookup_fmap.
    destruct (decide (j < length (start_indices c))) as [Hj|Hj].
    + rewrite lookup_elements, getitem_int_nonneg by done. simpl. split.
      * intros [= Hd%bool_decide_eq_true]. by rewrite Hd.
      * intros [= ->]. done.
    + rewrite (lookup_ge_None_2 (elements c)) by (rewrite length_elements; lia).
      rewrite getitem_int_out_of_bounds by lia. done.
Qed.

Lemma isna_encoding dt data :
  RaggedArray.isna (encoding np_astype dt data)
    = (λ d, bool_decide (len_or_0 d = 0)) <$> data.
Proof.
  rewrite isna_elements, elements_encoding, <- list_fmap_compose.
  apply list_fmap_ext. intros _ d _. simpl.
  destruct (decide (len_or_0 d = 0)) as [Hd|Hd].
  - rewrite norm_recast_empty by done. by rewrite !bool_decide_eq_true_2.
  - rewrite (bool_decide_eq_false_2 (len_or_0 d = 0)) by done.
    apply bool_decide_eq_false_2.
    destruct d as [src a| |]; simpl in *; [|done..].
    pose proof (length_cast src dt a).
    unfold len_or_0 in Hd.
    destruct (cast np_astype src dt a) eqn:Hc; simpl in *; [lia|done].
Qed.

(** X2: the sequence constructor, with or without a dtype, builds a
    container whenever no missing item meets a buffer of integers, and
    [isna()] of that container flags exactly the items that were missing
    ([None] or nan) or zero-length arrays. *)
Theorem X2_isna_of_sequence (data : list datum) (dtype : option dtype) :
  let dt := default (RaggedArray.infer_dtype data) dtype in
  (encodable dt data →
   ∃ r, RaggedArray.init_seq np_astype data dtype = Ok r ∧
        RaggedArray.isna r = (λ d, bool_decide (len_or_0 d = 0)) <$> data) ∧
  ∀ r, RaggedArray.init_seq np_astype data dtype = Ok r →
       RaggedArray.isna r = (λ d, bool_decide (len_or_0 d = 0)) <$> data.
Proof.
  intros dt. split.
  - intros Henc. eexists. split; [by apply init_seq_spec|]. apply isna_encoding.
  - intros r [_ ->]%init_seq_Ok_inv. apply isna_encoding.
Qed.

(** ** What the sequence constructor builds *)

Lemma offsets_from_sorted data : ∀ next,
  StronglySorted le (offsets_from next data) ∧
  Forall (λ s, next ≤ s) (offsets_from next data).
Proof.
  induction data as [|d data IH]; intros next; simpl.
  - split; constructor.
  - destruct (IH (next + len_or_0 d)) as [Hs Hb]. split.
    + constructor; [done|]. eapply Forall_impl; [exact Hb|]. simpl. lia.
    + constructor; [done|]. eapply Forall_impl; [exact Hb|]. simpl. lia.
Qed.

Lemma offsets_from_prefix_sums data :
  offsets_from 0 data
    = (λ j, sum_list (len_or_0 <$> take j data)) <$> seq 0 (length data).
Proof.
  apply list_eq. intros j. rewrite list_lookup_fmap.
  destruct (decide (j < length data)) as [Hj|Hj].
  - rewrite lookup_seq_lt by done. simpl.
    rewrite (list_lookup_lookup_total_lt (offsets_from 0 data) j)
      by by rewrite length_offsets_from.
    by rewrite offsets_from_lookup by done.
  - rewrite lookup_seq_ge by lia. simpl.
    apply lookup_ge_None. rewrite length_offsets_from. lia.
Qed.

(** X3: the sequence constructor, called without a dtype, finds the dtype
    [dt] of its values buffer from the arrays among the items (float64 when
    there is none).  When a missing item meets a buffer of integers it
    raises; otherwise the container it builds is the compressed encoding of
    the sequence: the values buffer has dtype [dt] and is the concatenation
    of the values of the items in order, each array converted to [dt] (an
    array of dtype [dt] is stored as it is, a missing item contributes
    nothing), and offset [j] is the total length of the items before
    position [j]; the offsets are therefore sorted. *)
Theorem X3_sequence_encoding (data : list datum) :
  let dt := RaggedArray.infer_dtype data in
  (encodable dt data →
   ∃ r, RaggedArray.init_seq np_astype data None = Ok r ∧
        flat_dtype r = dt ∧
        flat_array r = concat (values_in np_astype dt <$> data) ∧
        (∀ src a, values_in np_astype dt (Arr src a)
                    = if decide (src = dt) then a else np_astype src dt <$> a) ∧
        start_indices r
          = (λ j, sum_list (len_or_0 <$> take j data)) <$> seq 0 (length data) ∧
        StronglySorted le (start_indices r)) ∧
  (¬ encodable dt data →
   ∃ d, d ∈ data ∧ missing d = true ∧
        RaggedArray.init_seq np_astype data None = Raise (missing_error d)).
Proof.
  intros dt. split.
  - intros Henc. eexists. split; [by apply (init_seq_spec data None)|]. simpl.
    split; [done|]. split; [done|]. split; [done|]. split.
    + apply offsets_from_prefix_sums.
    + apply offsets_from_sorted.
  - intros Hnot. by apply (init_seq_raises data None).
Qed.

Lemma StronglySorted_le_lookup (l : list nat) : ∀ i j x y,
  StronglySorted le l → i < j → l !! i = Some x → l !! j = Some y → x ≤ y.
Proof.
  induction l as [|a l IH]; intros i j x y Hs Hij Hx Hy; [done|].
  apply StronglySorted_inv in Hs as [Hs Ha].
  destruct j as [|j]; [lia|]. simpl in Hy. destruct i as [|i]; simpl in Hx.
  - injection Hx as <-. eapply Forall_lookup_1 in Ha; [|done]. done.
  - apply (IH i j); (done || lia).
Qed.

(** X4: on a container within Invariant A whose offsets do not decrease,
    a position materialises either as nan, when its range is empty, or as
    an array with exactly [stop - start] values, which is then non-empty:
    positional access never returns a zero-length array. *)
Theorem X4_sorted_offsets_element_length (c : RaggedArray) (j : nat) :
  InvariantA c → StronglySorted le (start_indices c) →
  j < RaggedArray.__len__ c →
  let start := start_indices c !!! j in
  let stop := stop_of c j in
  start ≤ stop ∧
  RaggedArray.getitem_int c (Z.of_nat j)
    = Ok (if decide (start = stop) then NaN
          else Arr (flat_dtype c) (np_slice (flat_array c) start stop)) ∧
  length (np_slice (flat_array c) start stop) = stop - start.
Proof.
  intros Hinv Hsorted Hj start stop. unfold RaggedArray.__len__ in Hj.
  assert (start ≤ length (flat_array c)) as Hstart.
  { eapply (Forall_lookup_total_1 _ _ j) in Hinv; [done|lia]. }
  assert (start ≤ stop ∧ stop ≤ length (flat_array c)) as [Hle Hstop].
  { unfold stop, stop_of. case_decide as Hlast; [done|]. split.
    - apply (StronglySorted_le_lookup (start_indices c) j (S j)); try done; try lia.
      + apply list_lookup_lookup_total_lt. lia.
      + apply list_lookup_lookup_total_lt. lia.
    - eapply (Forall_lookup_total_1 _ _ (S j)) in Hinv; [done|lia]. }
  split; [done|]. split.
  - by rewrite getitem_int_nonneg.
  - unfold np_slice. rewrite length_take, length_drop. lia.
Qed.

(** ** Gathering by position *)

(** Encoding again a list of elements of [c] in a buffer of the dtype of
    [c], as the accesses that return a container do. *)
Lemma reencode_elements c (l : list datum) :
  l ⊆ elements c →
  let dt := flat_dtype c in
  (encodable dt l →
   RaggedArray.init_seq np_astype l (Some dt) = Ok (encoding np_astype dt l) ∧
   RaggedArray.__len__ (encoding np_astype dt l) = length l ∧
   RaggedArray.to_list (encoding np_astype dt l) = Ok (norm <$> l)) ∧
  (¬ encodable dt l →
   RaggedArray.init_seq np_astype l (Some dt) = Raise ValueError_nan_to_integer).
Proof.
  intros Hsub dt.
  assert (Forall (has_dtype dt) l) as Hdt.
  { apply Forall_forall. intros d Hd%Hsub.
    pose proof (elements_has_dtype c) as Hall. by eapply Forall_forall in Hall. }
  assert (Forall (λ d, d ≠ PyNone) l) as Hnone.
  { apply Forall_forall. intros d Hd%Hsub.
    pose proof (elements_not_None c) as Hall. by eapply Forall_forall in Hall. }
  split.
  - intros Henc. destruct (init_seq_same_dtype _ _ Hdt Henc) as [-> Hel].
    split; [done|]. split; [apply len_encoding|].
    by rewrite to_list_elements, Hel.
  - intros Hnot. by apply init_seq_nan_raises.
Qed.

Lemma element_in_elements c j :
  j < length (start_indices c) → element c j ∈ elements c.
Proof.
  intros Hj. apply list_elem_of_lookup. exists j. by apply lookup_elements.
Qed.

Lemma getitem_int_in_bounds c (i : Z) :
  in_bounds (length (start_indices c)) i →
  RaggedArray.getitem_int c i = Ok (element c (wrap_index (length (start_indices c)) i)).
Proof.
  unfold in_bounds, wrap_index. intros Hi. case_decide as Hneg.
  - replace i with (Z.of_nat (Z.to_nat (Z.of_nat (length (start_indices c)) + i))
                    - Z.of_nat (length (start_indices c)))%Z at 1 by lia.
    apply getitem_int_negative. lia.
  - replace i with (Z.of_nat (Z.to_nat i)) at 1 by lia.
    apply getitem_int_nonneg. lia.
Qed.

Lemma getitem_int_not_in_bounds c (i : Z) :
  ¬ in_bounds (length (start_indices c)) i →
  RaggedArray.getitem_int c i = Raise (IndexError_out_of_bounds i).
Proof.
  unfold in_bounds. intros Hi. apply getitem_int_out_of_bounds. lia.
Qed.

(** X5: [take] with [allow_fill=False] (also [self[list]]) reads every
    index positionally, a negative one from the end, and ignores
    [fill_value]: on an empty container any non-empty index list is
    refused; otherwise the first index outside [[-N, N)] raises a bounds
    error; with all indices in bounds the elements read are encoded again
    in a buffer of the dtype of the container: the result has one position
    per index and materialises to the designated elements in order (a
    zero-length one reading back as missing), unless the container holds
    integers and one of the elements read is missing, in which case [take]
    raises. *)
Theorem X5_take_positional (c : RaggedArray) (indices : list Z) (fill_value : datum) :
  let N := RaggedArray.__len__ c in
  let read := (λ i, element c (wrap_index N i)) <$> indices in
  (N = 0 → indices ≠ [] →
     RaggedArray.take np_astype c indices false fill_value
       = Raise IndexError_empty_take) ∧
  (N ≠ 0 → (∃ i, i ∈ indices ∧ ¬ in_bounds N i) →
     ∃ i, i ∈ indices ∧ ¬ in_bounds N i ∧
          RaggedArray.take np_astype c indices false fill_value
            = Raise (IndexError_out_of_bounds i)) ∧
  ((∀ i, i ∈ indices → in_bounds N i) →
     (encodable (flat_dtype c) read →
      ∃ r, RaggedArray.take np_astype c indices false fill_value = Ok r ∧
           RaggedArray.__getitem__ np_astype c (RaggedArray.IList indices)
             = Ok (RaggedArray.Sub r) ∧
           RaggedArray.__len__ r = length indices ∧
           RaggedArray.to_list r = Ok (norm <$> read)) ∧
     (¬ encodable (flat_dtype c) read →
      RaggedArray.take np_astype c indices false fill_value
        = Raise ValueError_nan_to_integer)).
Proof.
  intros N read.
  unfold RaggedArray.take, RaggedArray.__getitem__, RaggedArray.take.
  fold N. split; [|split].
  - intros -> Hne. destruct indices; [done|]. done.
  - intros HN (j & Hj & Hout).
    destruct (Nat.eqb_spec N 0); [done|]. cbn [andb].
    destruct (traverse_first_error (RaggedArray.getitem_int c) indices)
      as (i & e & Hi & Hfi & ->).
    { exists j. split; [done|]. intros [d Hd].
      by rewrite getitem_int_not_in_bounds in Hd. }
    exists i. split; [done|].
    destruct (decide (in_bounds N i)) as [Hin|Hnin].
    + by rewrite getitem_int_in_bounds in Hfi.
    + rewrite getitem_int_not_in_bounds in Hfi by done.
      injection Hfi as <-. done.
  - intros Hin.
    assert ((N =? 0) && (0 <? length indices) = false) as ->.
    { destruct (Nat.eqb_spec N 0) as [HN|]; [|done].
      destruct indices as [|i ?]; [done|].
      specialize (Hin i ltac:(by left)). unfold in_bounds in Hin. lia. }
    rewrite (traverse_Ok _ (λ i, element c (wrap_index N i)))
      by (intros i Hi; by apply getitem_int_in_bounds, Hin).
    rewrite bind_Ok_l. fold read.
    destruct (reencode_elements c read) as [Hok Hraise].
    { intros d (i & -> & Hi)%list_elem_of_fmap. apply element_in_elements.
      specialize (Hin i Hi). unfold in_bounds, wrap_index, N, RaggedArray.__len__ in *.
      case_decide; lia. }
    split.
    + intros Henc. destruct (Hok Henc) as (-> & Hlen & Hl).
      eexists. split; [done|]. split; [done|]. split; [|done].
      rewrite Hlen. unfold read. by rewrite length_fmap.
    + done.
Qed.

(** ** Slices *)

Lemma py_range_in_bounds (N start stop step : Z) :
  (0 < step → 0 ≤ start ∧ stop ≤ N)%Z →
  (step < 0 → start ≤ N - 1 ∧ -1 ≤ stop)%Z →
  step ≠ 0%Z →
  Forall (λ i, 0 ≤ i < N)%Z (RaggedArray.py_range start stop step).
Proof.
  intros Hpos Hneg Hstep. unfold RaggedArray.py_range.
  apply Forall_fmap, Forall_seq. intros k [_ Hk]. simpl in *.
  destruct (Z.ltb_spec 0 step) as [Hs|Hs].
  - destruct (Z.ltb_spec start stop); [|lia].
    pose proof (Z.mul_div_le (stop - start - 1) step Hs).
    assert (Z.of_nat k ≤ (stop - start - 1) / step)%Z by lia.
    specialize (Hpos Hs). nia.
  - assert (step < 0)%Z as Hs' by lia.
    destruct (Z.ltb_spec stop start); [|lia].
    pose proof (Z.mul_div_le (start - stop - 1) (- step) ltac:(lia)).
    assert (Z.of_nat k ≤ (start - stop - 1) / - step)%Z by lia.
    specialize (Hneg Hs'). nia.
Qed.

Lemma arange_slice_in_bounds (N : nat) (s : RaggedArray.pyslice) :
  default 1%Z (RaggedArray.sl_step s) ≠ 0%Z →
  ∃ idx, RaggedArray.arange_slice N s = Ok idx ∧
         Forall (λ i, 0 ≤ i < Z.of_nat N)%Z idx.
Proof.
  intros Hstep. unfold RaggedArray.arange_slice, RaggedArray.slice_indices.
  destruct (Z.eqb_spec (default 1%Z (RaggedArray.sl_step s)) 0); [done|].
  simpl. eexists. split; [done|].
  apply py_range_in_bounds; [| |done].
  - intros Hs. destruct (Z.ltb_spec (default 1%Z (RaggedArray.sl_step s)) 0); [lia|].
    split.
    + destruct (RaggedArray.sl_start s) as [v|]; [|lia].
      destruct (Z.ltb_spec v 0); lia.
    + destruct (RaggedArray.sl_stop s) as [v|]; [|lia].
      destruct (Z.ltb_spec v 0); lia.
  - intros Hs. destruct (Z.ltb_spec (default 1%Z (RaggedArray.sl_step s)) 0); [|lia].
    split.
    + destruct (RaggedArray.sl_start s) as [v|]; [|lia].
      destruct (Z.ltb_spec v 0); lia.
    + destruct (RaggedArray.sl_stop s) as [v|]; [|lia].
      destruct (Z.ltb_spec v 0); lia.
Qed.

Lemma traverse_getitem_positions c (idx : list Z) :
  Forall (λ i, 0 ≤ i < Z.of_nat (length (start_indices c)))%Z idx →
  traverse (RaggedArray.getitem_int c) idx
    = Ok ((λ i, element c (Z.to_nat i)) <$> idx) ∧
  (λ i, element c (Z.to_nat i)) <$> idx ⊆ elements c.
Proof.
  intros Hall. split.
  - apply traverse_Ok. intros i Hi.
    eapply Forall_forall in Hall; [|done]. simpl in Hall.
    replace i with (Z.of_nat (Z.to_nat i)) at 1 by lia.
    apply getitem_int_nonneg. lia.
  - intros d (i & -> & Hi)%list_elem_of_fmap. apply element_in_elements.
    eapply Forall_forall in Hall; [|done]. simpl in Hall. lia.
Qed.

(** X6: access by slice never raises a bounds error.  A slice whose step
    is zero is refused; for any other slice, whatever its start and stop,
    the selected positions all lie in [[0, N)], and the elements there are
    encoded again in a buffer of the dtype of the container: the result
    has one position per selected position and materialises to the
    elements there, in the order of the slice (a zero-length one reading
    back as missing), unless the container holds integers and a selected
    element is missing, in which case the access raises. *)
Theorem X6_slice_access (c : RaggedArray) (s : RaggedArray.pyslice) :
  let N := RaggedArray.__len__ c in
  (default 1%Z (RaggedArray.sl_step s) = 0%Z →
     RaggedArray.getitem_slice np_astype c s = Raise ValueError_slice_step) ∧
  (default 1%Z (RaggedArray.sl_step s) ≠ 0%Z →
     ∃ idx, RaggedArray.arange_slice N s = Ok idx ∧
            Forall (λ i, 0 ≤ i < Z.of_nat N)%Z idx ∧
            let read := (λ i, element c (Z.to_nat i)) <$> idx in
            (encodable (flat_dtype c) read →
             ∃ r, RaggedArray.getitem_slice np_astype c s = Ok r ∧
                  RaggedArray.__len__ r = length idx ∧
                  RaggedArray.to_list r = Ok (norm <$> read)) ∧
            (¬ encodable (flat_dtype c) read →
             RaggedArray.getitem_slice np_astype c s
               = Raise ValueError_nan_to_integer)).
Proof.
  intros N. split.
  - intros Hstep. unfold RaggedArray.getitem_slice, RaggedArray.arange_slice,
      RaggedArray.slice_indices. by rewrite Hstep.
  - intros Hstep. destruct (arange_slice_in_bounds N s Hstep) as (idx & Hidx & Hall).
    exists idx. split; [done|]. split; [done|]. intros read.
    unfold RaggedArray.getitem_slice. fold N. rewrite Hidx, bind_Ok_l.
    destruct (traverse_getitem_positions c idx Hall) as [-> Hsub].
    rewrite bind_Ok_l. fold read in Hsub |- *.
    destruct (reencode_elements c read Hsub) as [Hok Hraise]. split.
    + intros Henc. destruct (Hok Henc) as (-> & Hlen & Hl).
      eexists. split; [done|]. split; [|done].
      rewrite Hlen. unfold read. by rewrite length_fmap.
    + done.
Qed.

Lemma py_range_reversed (N : nat) :
  RaggedArray.py_range (Z.of_nat N - 1) (-1) (-1)
    = (λ k, (Z.of_nat N - 1 - Z.of_nat k)%Z) <$> seq 0 N.
Proof.
  unfold RaggedArray.py_range. change (0 <? -1)%Z with false. cbv iota.
  change (- -1)%Z with 1%Z. rewrite Z.div_1_r.
  destruct (Z.ltb_spec (-1) (Z.of_nat N - 1)).
  - replace (Z.to_nat (Z.of_nat N - 1 - -1 - 1 + 1)) with N by lia.
    apply list_fmap_ext. intros; lia.
  - by replace N with 0 by lia.
Qed.

Lemma encodable_reverse dt l : encodable dt (reverse l) ↔ encodable dt l.
Proof. unfold encodable. by rewrite Forall_reverse. Qed.

(** X7: the full slice [self[:]] encodes the container again, and
    [self[::-1]] reverses it.  On a container of floats, or one without
    missing element, they return a container that materialises to the
    elements of the container in order and in reverse order (a zero-length
    element reading back as missing); on a container of integers with a
    missing element both raise. *)
Theorem X7_full_and_reversed_slice (c : RaggedArray) :
  let full := RaggedArray.mkSlice None None None in
  let reversed := RaggedArray.mkSlice None None (Some (-1)%Z) in
  (encodable (flat_dtype c) (elements c) →
   (∃ r, RaggedArray.getitem_slice np_astype c full = Ok r ∧
         RaggedArray.to_list r = Ok (norm <$> elements c)) ∧
   (∃ r, RaggedArray.getitem_slice np_astype c reversed = Ok r ∧
         RaggedArray.to_list r = Ok (norm <$> reverse (elements c)))) ∧
  (¬ encodable (flat_dtype c) (elements c) →
   RaggedArray.getitem_slice np_astype c full = Raise ValueError_nan_to_integer ∧
   RaggedArray.getitem_slice np_astype c reversed = Raise ValueError_nan_to_integer).
Proof.
  intros full reversed.
  set (N := length (start_indices c)).
  assert (RaggedArray.getitem_slice np_astype c full
          = RaggedArray.init_seq np_astype (elements c) (Some (flat_dtype c))) as Hfull.
  { unfold RaggedArray.getitem_slice, RaggedArray.arange_slice,
      RaggedArray.slice_indices, RaggedArray.__len__. fold N. simpl.
    rewrite py_range_step1. replace (Z.to_nat (Z.of_nat N - 0)) with N by lia.
    destruct (traverse_getitem_positions c ((λ k, (0 + Z.of_nat k)%Z) <$> seq 0 N))
      as [-> _]; [apply Forall_fmap, Forall_seq; intros; simpl; lia|].
    simpl. f_equal. unfold elements. fold N. rewrite <- list_fmap_compose.
    apply list_fmap_ext. intros _ k _. simpl. f_equal. lia. }
  assert (RaggedArray.getitem_slice np_astype c reversed
          = RaggedArray.init_seq np_astype (reverse (elements c))
              (Some (flat_dtype c))) as Hrev.
  { unfold RaggedArray.getitem_slice, RaggedArray.arange_slice,
      RaggedArray.slice_indices, RaggedArray.__len__. fold N. simpl.
    destruct (traverse_getitem_positions c
                (RaggedArray.py_range (Z.of_nat N - 1) (-1) (-1)))
      as [-> _]; [apply py_range_in_bounds; lia|].
    simpl. f_equal.
    rewrite py_range_reversed, <- list_fmap_compose.
    apply list_eq. intros k. rewrite list_lookup_fmap.
    destruct (decide (k < N)) as [Hk|Hk].
    + rewrite lookup_seq_lt by done. simpl.
      rewrite reverse_lookup by (rewrite length_elements; fold N; lia).
      rewrite length_elements. fold N.
      rewrite lookup_elements by (fold N; lia). do 2 f_equal. lia.
    + rewrite lookup_seq_ge by lia. simpl. symmetry.
      apply lookup_ge_None. rewrite length_reverse, length_elements. fold N. lia. }
  rewrite Hfull, Hrev.
  destruct (reencode_elements c (elements c)) as [Hok Hraise]; [done|].
  destruct (reencode_elements c (reverse (elements c))) as [Hok' Hraise'].
  { intros d Hd. by rewrite elem_of_reverse in Hd. }
  split.
  - intros Henc. split.
    + destruct (Hok Henc) as (-> & _ & Hl). by eexists.
    + destruct Hok' as (-> & _ & Hl); [by apply encodable_reverse|]. by eexists.
  - intros Hnot. split; [by apply Hraise|].
    apply Hraise'. by rewrite encodable_reverse.
Qed.

(** ** Masks that are longer than the container *)

Lemma mask_loop_general c : ∀ (m : list bool) i,
  (∀ k, m !! k = Some true → i + k < length (start_indices c)) →
  RaggedArray.mask_loop c i m = Ok (select_true (drop i (elements c)) m).
Proof.
  intros m. induction m as [|b m IH]; intros i Hin; simpl.
  - unfold select_true. by rewrite zip_with_nil_r.
  - destruct b.
    + specialize (Hin 0 eq_refl) as Hi. rewrite Nat.add_0_r in Hi.
      rewrite drop_elements, select_true_cons by done.
      rewrite getitem_int_nonneg by done. simpl.
      rewrite IH; [done|]. intros k Hk. specialize (Hin (S k) Hk). lia.
    + rewrite IH by (intros k Hk; specialize (Hin (S k) Hk); lia).
      f_equal. destruct (decide (i < length (start_indices c))).
      * by rewrite (drop_elements c i), select_true_cons.
      * rewrite !drop_ge by (rewrite length_elements; lia). done.
Qed.

Lemma mask_loop_error c : ∀ (m : list bool) i,
  (∃ k, m !! k = Some true ∧ length (start_indices c) ≤ i + k) →
  ∃ k, m !! k = Some true ∧ length (start_indices c) ≤ i + k ∧
       RaggedArray.mask_loop c i m = Raise (IndexError_out_of_bounds (Z.of_nat (i + k))).
Proof.
  intros m. induction m as [|b m IH]; intros i (k & Hk & Hle); [done|].
  simpl. destruct b.
  - destruct (decide (i < length (start_indices c))) as [Hi|Hi].
    + rewrite getitem_int_nonneg by done. simpl.
      destruct k as [|k]; [lia|]. simpl in Hk.
      destruct (IH (S i)) as (k' & Hk' & Hle' & ->); [exists k; split; [done|lia]|].
      exists (S k'). split; [done|]. split; [lia|]. simpl. do 3 f_equal. lia.
    + exists 0. split; [done|]. split; [lia|].
      rewrite getitem_int_out_of_bounds by lia. simpl. by rewrite Nat.add_0_r.
  - destruct k as [|k]; [done|]. simpl in Hk.
    destruct (IH (S i)) as (k' & Hk' & Hle' & ->); [exists k; split; [done|lia]|].
    exists (S k'). split; [done|]. split; [lia|]. do 3 f_equal. lia.
Qed.

(** X8: access by a boolean mask looks only at the true entries of the
    mask.  A mask of any length whose true entries all lie below N is
    accepted (entries beyond N that are false are ignored): the elements at
    its true positions are encoded again in a buffer of the dtype of the
    container, which gives a container that materialises to them (a
    zero-length one reading back as missing), or raises when the container
    holds integers and a selected element is missing.  A true entry at a
    position N or beyond raises the bounds error of that position. *)
Theorem X8_mask_true_entries (c : RaggedArray) (m : list bool) :
  let N := RaggedArray.__len__ c in
  let selected := select_true (elements c) m in
  ((∀ k, m !! k = Some true → k < N) →
     (encodable (flat_dtype c) selected →
      ∃ r, RaggedArray.getitem_mask np_astype c m = Ok r ∧
           RaggedArray.to_list r = Ok (norm <$> selected)) ∧
     (¬ encodable (flat_dtype c) selected →
      RaggedArray.getitem_mask np_astype c m = Raise ValueError_nan_to_integer)) ∧
  ((∃ k, m !! k = Some true ∧ N ≤ k) →
     ∃ k, m !! k = Some true ∧ N ≤ k ∧
          RaggedArray.getitem_mask np_astype c m
            = Raise (IndexError_out_of_bounds (Z.of_nat k))).
Proof.
  intros N selected. unfold RaggedArray.getitem_mask. split.
  - intros Hin. rewrite mask_loop_general by done. rewrite drop_0, bind_Ok_l.
    fold selected.
    destruct (reencode_elements c selected) as [Hok Hraise].
    { intros d Hd. by eapply select_true_elem. }
    split; [|done]. intros Henc. destruct (Hok Henc) as (-> & _ & Hl). by eexists.
  - intros Hout. destruct (mask_loop_error c m 0 Hout) as (k & Hk & Hle & ->).
    by exists k.
Qed.

(** ** The width of the offsets *)

(** X13: the constructor on sequences picks, among 8, 16, 32 and 64 bits,
    the narrowest unsigned width whose largest value is at least the
    length of the values buffer; as long as that length is below 2^64,
    every offset of a container it builds fits in the width picked, which
    is the width of the offsets of that container. *)
Theorem X13_offsets_width (data : list datum) (dtype : option dtype) :
  let w := RaggedArray.start_indices_nbits data in
  let V := Z.of_nat (RaggedArray.buffer_len data) in
  w ∈ [8; 16; 32; 64]%Z ∧
  (∀ w', w' ∈ [8; 16; 32; 64]%Z → (V ≤ iinfo_max w')%Z → (w ≤ w')%Z) ∧
  ((V < 2 ^ 64)%Z →
   (V ≤ iinfo_max w)%Z ∧
   ∀ r, RaggedArray.init_seq np_astype data dtype = Ok r →
        start_nbits r = w ∧
        Forall (λ s, (Z.of_nat s ≤ iinfo_max w)%Z) (start_indices r)).
Proof.
  intros w V.
  assert (∀ r, RaggedArray.init_seq np_astype data dtype = Ok r →
               start_nbits r = w ∧
               Forall (λ s, Z.of_nat s ≤ V)%Z (start_indices r)) as Hoff.
  { intros r [_ ->]%init_seq_Ok_inv. split; [done|]. simpl.
    pose proof (offsets_from_bound data 0) as Hb.
    eapply Forall_impl; [exact Hb|]. simpl. unfold V. lia. }
  unfold w, RaggedArray.start_indices_nbits, RaggedArray.nbits_loop,
    iinfo_max in *. fold V in Hoff |- *.
  change (2 ^ 8 - 1)%Z with 255%Z in *. change (2 ^ 16 - 1)%Z with 65535%Z in *.
  change (2 ^ 32 - 1)%Z with 4294967295%Z in *.
  change (2 ^ 64 - 1)%Z with 18446744073709551615%Z in *.
  change (2 ^ 64)%Z with 18446744073709551616%Z.
  assert (∀ w' : Z, w' ∈ [8; 16; 32; 64]%Z →
            w' = 8%Z ∨ w' = 16%Z ∨ w' = 32%Z ∨ w' = 64%Z) as Hcases.
  { intros w' Hw'. repeat (apply elem_of_cons in Hw' as [->|Hw']; [tauto|]).
    by apply elem_of_nil in Hw'. }
  destruct (Z.leb_spec V 255); [|destruct (Z.leb_spec V 65535);
    [|destruct (Z.leb_spec V 4294967295);
      [|destruct (Z.leb_spec V 18446744073709551615)]]].
  all: split; [apply list_elem_of_In; simpl; tauto|]; split.
  all: try (intros w' [->|[->|[->| ->]]]%Hcases;
            change (2 ^ 8 - 1)%Z with 255%Z; change (2 ^ 16 - 1)%Z with 65535%Z;
            change (2 ^ 32 - 1)%Z with 4294967295%Z;
            change (2 ^ 64 - 1)%Z with 18446744073709551615%Z; lia).
  all: intros Hlt; (split; [lia|]); intros r Hr;
       destruct (Hoff r Hr) as [Hw Hall]; (split; [done|]);
       eapply Forall_impl; [exact Hall|]; simpl; lia.
Qed.

(** ** Copies and buffers *)

(** X14: [copy(deep=False)] returns a container on the same two buffers
    and allocates nothing; [copy(deep=True)] and the duplicating
    constructor [RaggedArray(other)] return a container with the same
    contents in two new buffers, the source being left as it was. *)
Theorem X14_copy_shallow_and_deep (h : list Heap.buffer) (self : Heap.RaggedObject)
    (c : RaggedArray) :
  Heap.contents h self = Some c → InvariantA c →
  Heap.copy self false h = Ok (self, h) ∧
  ∃ o' h',
    Heap.copy self true h = Ok (o', h') ∧
    Heap.init_copy self h = (o', h') ∧
    Heap.contents h' o' = Some c ∧
    Heap.contents h' self = Some c ∧
    ¬ Heap.shares_buffer self o'.
Proof.
  intros Hc Hinv. split; [by eapply heap_copy_shallow|].
  destruct (heap_copy_deep h self c Hc Hinv) as (o' & h' & Hcopy & Hcont & Hfresh).
  exists o', h'. split; [done|].
  assert (Heap.init_copy self h = (o', h')) as Hdup.
  { unfold Heap.copy, Heap.init_copy in *.
    destruct (Heap.array_copy (Heap.flat_array_id self) h) as [flat_id h1].
    destruct (Heap.array_copy (Heap.start_indices_id self) h1) as [start_id h2].
    unfold Heap.init_dict in Hcopy. apply bind_Ok in Hcopy as (? & _ & Hcopy).
    by injection Hcopy as <- <-. }
  split; [done|]. split; [by rewrite Hcont|]. split; [|done].
  unfold Heap.init_copy, Heap.array_copy, Heap.new_array in Hdup.
  injection Hdup as _ <-.
  unfold Heap.contents in *.
  destruct (h !! Heap.start_indices_id self) as [bs|] eqn:Hs; [|done].
  destruct (h !! Heap.flat_array_id self) as [bf|] eqn:Hf; [|by destruct bs].
  rewrite (lookup_app_l_Some _ _ _ bs) by by apply lookup_app_l_Some.
  by rewrite (lookup_app_l_Some _ _ _ bf) by by apply lookup_app_l_Some.
Qed.

(** X21: [astype] to the ragged dtype never duplicates the data: with
    [copy=False] it returns the container itself, and with [copy=True] it
    returns [self.copy()], the shallow copy on the same two buffers; no
    array is allocated. *)
Theorem X21_astype_ragged_shares_buffers (h : list Heap.buffer)
    (self : Heap.RaggedObject) (c : RaggedArray) (copy' : bool) :
  Heap.contents h self = Some c → InvariantA c →
  Heap.astype self copy' h = Ok (self, h).
Proof.
  intros Hc Hinv.
  unfold Heap.astype. destruct copy'; [|done]. by eapply heap_copy_shallow.
Qed.

(** ** Raw pairs *)

Lemma select_true_filter (m : nat) (l : list nat) :
  select_true l ((λ s, m <? s) <$> l) = filter (λ s, m < s) l.
Proof.
  induction l as [|s l IH]; [done|]. csimpl. rewrite select_true_cons, IH.
  rewrite filter_cons. destruct (Nat.ltb_spec m s); case_decide; (done || lia).
Qed.

(** X15: construction from a raw pair succeeds exactly on the well-formed
    pairs (offsets a 1-D array of unsigned integers, values a 1-D array,
    every offset at most the length of the values), and then adopts the two
    arrays as they are, with their dtypes: same elements in the same order,
    and on the heap the same two buffers, nothing being allocated.  A pair
    whose offsets are not a 1-D unsigned array is refused for that reason
    before the values are looked at. *)
Theorem X15_raw_pair_construction (data : raw_data) :
  (is_Ok (RaggedArray.init_dict data) ↔ well_formed data) ∧
  (∀ s f, raw_start_indices data = Ndarray s → raw_flat_array data = Ndarray f →
          well_formed data →
          RaggedArray.init_dict data
            = Ok (mkRaggedArray (elems s) (elems f)
                                (dtype_nbits (array_dtype s)) (array_dtype f))) ∧
  ((∀ s, raw_start_indices data = Ndarray s → kind s ≠ kind_u ∨ ndim s ≠ 1) →
   RaggedArray.init_dict data = Raise ValueError_start_indices) ∧
  (∀ h start_id flat_id,
     data = Heap.raw_of h start_id flat_id → well_formed data →
     Heap.init_dict start_id flat_id h = Ok (Heap.mkObject start_id flat_id, h)).
Proof.
  split; [|split; [|split]].
  - apply raw_pair_accepted_iff.
  - intros s f Hs Hf Hwf. unfold RaggedArray.init_dict.
    by rewrite (validate_well_formed _ Hwf), Hs, Hf.
  - intros Hbad. unfold RaggedArray.init_dict, _validate_ragged_properties.
    destruct (raw_start_indices data) as [|s]; [done|].
    destruct (Hbad s eq_refl) as [Hk|Hn].
    + by rewrite bool_decide_eq_false_2.
    + destruct (Nat.eqb_spec (ndim s) 1); [done|]. by rewrite orb_true_r.
  - intros h start_id flat_id -> Hwf. unfold Heap.init_dict.
    by rewrite (validate_well_formed _ Hwf).
Qed.

(** X16: when a raw pair of at most ten offsets has an offset beyond the
    length of the values, construction fails with the error that carries
    that length and lists all the offending offsets, in order. *)
Theorem X16_offending_offsets_listed (start : list nat) (flat : list value)
    (nbits : Z) (dt : dtype) :
  length start ≤ 10 →
  (∃ s, s ∈ start ∧ length flat < s) →
  RaggedArray.init_dict (RaggedArray.dict_of start flat nbits dt)
    = Raise (ValueError_invalid_start (length flat)
               (filter (λ s, length flat < s) start)).
Proof.
  intros Hlen (s & Hs & Hbad).
  rewrite raw_pair_offending_listed, select_true_filter; [done..|].
  intros Hall. eapply Forall_forall in Hall; [|done]. simpl in Hall. lia.
Qed.

(** ** Concatenation *)

Lemma np_slice_app_l {A} (fa fb : list A) s e :
  e ≤ length fa → np_slice (fa ++ fb) s e = np_slice fa s e.
Proof.
  intros He. unfold np_slice. destruct (decide (s ≤ e)) as [Hse|Hse].
  - rewrite drop_app_le by lia. rewrite take_app_le; [done|].
    rewrite length_drop. lia.
  - by replace (e - s) with 0 by lia.
Qed.

Lemma np_slice_app_r {A} (fa fb : list A) s e :
  np_slice (fa ++ fb) (s + length fa) (e + length fa) = np_slice fb s e.
Proof.
  unfold np_slice. rewrite drop_app_ge by lia.
  by replace (s + length fa - length fa) with s by lia;
     replace (e + length fa - (s + length fa)) with (e - s) by lia.
Qed.

Lemma np_slice_cast src dst (l : list value) s e :
  np_slice (cast np_astype src dst l) s e = cast np_astype src dst (np_slice l s e).
Proof.
  unfold cast, np_slice. case_decide; [done|]. by rewrite fmap_take, fmap_drop.
Qed.

Lemma lookup_total_fmap_add (l : list nat) k n :
  k < length l → ((λ s, s + n) <$> l) !!! k = l !!! k + n.
Proof.
  intros Hk. rewrite !list_lookup_total_alt, list_lookup_fmap.
  destruct (l !! k) eqn:Hl; [done|]. apply lookup_ge_None in Hl. lia.
Qed.

(** The elements of the concatenation of two containers, when no sum wraps
    around: those of the first, then those of the second, converted to the
    common dtype. *)
Lemma elements_appended a b :
  InvariantA a → head_at_zero b →
  elements (appended np_astype a b)
    = recast np_astype (np_result_type [flat_dtype a; flat_dtype b])
        <$> elements a ++ elements b.
Proof.
  intros Ha Hhead.
  set (dt := np_result_type [flat_dtype a; flat_dtype b]).
  set (r := appended np_astype a b).
  assert (length (start_indices r)
          = length (start_indices a) + length (start_indices b)) as Hlen
    by (unfold r; simpl; by rewrite length_app, length_fmap).
  assert (flat_array r = cast np_astype (flat_dtype a) dt (flat_array a)
                           ++ cast np_astype (flat_dtype b) dt (flat_array b))
    as Hflat by done.
  assert (start_indices r
          = start_indices a ++ ((λ s, s + length (flat_array a)) <$> start_indices b))
    as Hstarts by done.
  assert (flat_dtype r = dt) as Hdt by done.
  apply list_eq. intros j. rewrite list_lookup_fmap.
  destruct (decide (j < length (start_indices a))) as [Hja|Hja].
  - rewrite lookup_app_l by by rewrite length_elements.
    rewrite !lookup_elements by lia. simpl. f_equal.
    assert (start_indices r !!! j = start_indices a !!! j) as Hstart
      by (rewrite Hstarts; by rewrite lookup_total_app_l).
    assert (stop_of r j = stop_of a j ∧ stop_of a j ≤ length (flat_array a))
      as [Hstop Hbound].
    { unfold stop_of. rewrite Hlen, Hstarts, Hflat.
      destruct (decide (S j = length (start_indices a))) as [Hlast|Hlast].
      - split; [|done].
        destruct (start_indices b) as [|s sb] eqn:Hsb.
        + unfold head_at_zero in Hhead. rewrite Hsb in Hhead.
          rewrite decide_True by (simpl; lia).
          rewrite Hhead, cast_nil, app_nil_r. apply length_cast.
        + unfold head_at_zero in Hhead. rewrite Hsb in Hhead. subst s.
          rewrite decide_False by (simpl; lia).
          rewrite lookup_total_app_r by lia.
          rewrite Hlast, Nat.sub_diag. done.
      - rewrite decide_False by lia. rewrite lookup_total_app_l by lia.
        split; [done|].
        eapply (Forall_lookup_total_1 _ _ (S j)) in Ha; [done|lia]. }
    unfold element. rewrite Hstart, Hstop, Hdt, Hflat.
    case_decide; [done|]. simpl. f_equal.
    rewrite np_slice_app_l by by rewrite length_cast.
    apply np_slice_cast.
  - rewrite lookup_app_r by (rewrite length_elements; lia).
    rewrite length_elements.
    destruct (decide (j < length (start_indices r))) as [Hjr|Hjr].
    + rewrite !lookup_elements by lia. simpl. f_equal.
      set (k := j - length (start_indices a)).
      assert (start_indices r !!! j
              = start_indices b !!! k + length (flat_array a)) as Hstart.
      { rewrite Hstarts. rewrite lookup_total_app_r by lia. fold k.
        by rewrite lookup_total_fmap_add by lia. }
      assert (stop_of r j = stop_of b k + length (flat_array a)) as Hstop.
      { unfold stop_of. rewrite Hlen, Hstarts, Hflat.
        destruct (decide (S k = length (start_indices b))) as [Hlast|Hlast].
        - rewrite decide_True by lia. rewrite length_app, !length_cast. lia.
        - rewrite decide_False by lia. rewrite lookup_total_app_r by lia.
          replace (S j - length (start_indices a)) with (S k) by lia.
          by rewrite lookup_total_fmap_add by lia. }
      unfold element. rewrite Hstart, Hstop, Hdt, Hflat.
      repeat case_decide; try lia; [done|]. simpl. f_equal.
      rewrite <- (length_cast (flat_dtype a) dt (flat_array a)).
      rewrite np_slice_app_r. apply np_slice_cast.
    + rewrite (lookup_ge_None_2 (elements r)) by (rewrite length_elements; lia).
      symmetry. rewrite (lookup_ge_None_2 (elements b)); [done|].
      rewrite length_elements. lia.
Qed.

(** X11: for two containers within Invariant A that hold at most 255
    values in all, the second of which starts at offset 0, the concatenation
    has for dtype the common dtype of the two and materialises to the
    elements of the first followed by the elements of the second, converted
    to that dtype (as they are when the two containers have the same
    dtype); its offsets stay within the narrowest width. *)
Theorem X11_concat_materialises_append (a b : RaggedArray) :
  InvariantA a → InvariantA b → head_at_zero b →
  fits_uint8 (length (flat_array a) + length (flat_array b)) →
  let dt := np_result_type [flat_dtype a; flat_dtype b] in
  ∃ r, RaggedArray._concat_same_type np_astype [a; b] = Ok r ∧
       Forall fits_uint8 (start_indices r) ∧
       flat_dtype r = dt ∧
       RaggedArray.__len__ r = RaggedArray.__len__ a + RaggedArray.__len__ b ∧
       RaggedArray.to_list r = Ok (recast np_astype dt <$> elements a ++ elements b) ∧
       (flat_dtype a = flat_dtype b →
        RaggedArray.to_list r = Ok (elements a ++ elements b)).
Proof.
  intros Ha Hb Hhead Hfits dt. rewrite concat_two_uint8 by done.
  eexists. split; [done|].
  assert (RaggedArray.to_list (appended np_astype a b)
          = Ok (recast np_astype dt <$> elements a ++ elements b)) as Hl
    by by rewrite to_list_elements, elements_appended.
  split; [|split; [done|split; [|split; [done|]]]].
  - simpl. apply Forall_app. split.
    + eapply Forall_impl; [exact Ha|]. unfold fits_uint8 in *. simpl. intros; lia.
    + apply Forall_fmap. eapply Forall_impl; [exact Hb|].
      unfold fits_uint8 in *. simpl. intros; lia.
  - unfold RaggedArray.__len__. simpl. by rewrite length_app, length_fmap.
  - intros Hsame. rewrite Hl. f_equal. apply fmap_recast_has_dtype.
    assert (dt = flat_dtype a) as -> by (unfold dt; rewrite Hsame; apply np_result_type_pair).
    apply Forall_app. split; [apply elements_has_dtype|].
    rewrite Hsame. apply elements_has_dtype.
Qed.

Lemma start_indices_nbits_uint8 data :
  fits_uint8 (RaggedArray.buffer_len data) → RaggedArray.start_indices_nbits data = 8%Z.
Proof.
  unfold fits_uint8, RaggedArray.start_indices_nbits. simpl.
  intros H. by destruct (Z.leb_spec (Z.of_nat (RaggedArray.buffer_len data)) (iinfo_max 8));
    [|lia].
Qed.

Lemma np_min_uint_nbits_uint8 v : fits_uint8 v → np_min_uint_nbits v = 8%Z.
Proof.
  unfold fits_uint8, np_min_uint_nbits. intros H.
  by destruct (Z.leb_spec (Z.of_nat v) (iinfo_max 8)); [|lia].
Qed.

(** The sum [start_indices + offset] for the encoding of a sequence, within
    8 bits. *)
Lemma np_add_scalar_encoding dt l acc :
  fits_uint8 (acc + RaggedArray.buffer_len l) →
  np_add_scalar (start_nbits (encoding np_astype dt l))
                (start_indices (encoding np_astype dt l)) acc
    = (8%Z, offsets_from acc l).
Proof.
  intros Hfits. unfold fits_uint8 in Hfits.
  rewrite (surjective_pairing (np_add_scalar _ _ _)). f_equal.
  - rewrite np_add_scalar_fst. unfold sum_nbits. simpl.
    rewrite start_indices_nbits_uint8, np_min_uint_nbits_uint8;
      unfold fits_uint8; (done || lia).
  - rewrite np_add_scalar_no_wrap.
    + simpl. by rewrite offsets_from_shift.
    + apply no_wrap_uint8. simpl.
      eapply Forall_impl; [apply (offsets_from_bound l 0)|].
      unfold fits_uint8. simpl. intros; lia.
Qed.

Lemma concat_sums_encoding dt (ls : list (list datum)) : ∀ acc,
  fits_uint8 (acc + RaggedArray.buffer_len (concat ls)) →
  let sums :=
    zip_with (λ offset ra, np_add_scalar (start_nbits ra) (start_indices ra) offset)
      (acc :: cumsum_from acc
                ((λ ra, length (flat_array ra))
                   <$> removelast (encoding np_astype dt <$> ls)))
      (encoding np_astype dt <$> ls) in
  concat (snd <$> sums) = offsets_from acc (concat ls) ∧
  Forall (λ p, fst p = 8%Z) sums.
Proof.
  induction ls as [|l ls IH]; intros acc Hfits; [by split; [|constructor]|].
  change (concat (l :: ls)) with (l ++ concat ls) in *.
  rewrite buffer_len_app in Hfits.
  destruct ls as [|l2 ls].
  - cbn -[np_add_scalar encoding].
    rewrite np_add_scalar_encoding by (unfold fits_uint8 in *; lia).
    simpl. rewrite !app_nil_r. split; [done|]. by repeat constructor.
  - change (removelast (encoding np_astype dt <$> l :: l2 :: ls))
      with (encoding np_astype dt l
              :: removelast (encoding np_astype dt <$> l2 :: ls)).
    cbn -[np_add_scalar encoding removelast concat].
    rewrite np_add_scalar_encoding by (unfold fits_uint8 in *; lia).
    assert (length (flat_array (encoding np_astype dt l)) = RaggedArray.buffer_len l)
      as -> by (simpl; by rewrite <- buffer_len_flat).
    destruct (IH (acc + RaggedArray.buffer_len l)) as [Hs Hw].
    { unfold fits_uint8 in *. lia. }
    cbn -[np_add_scalar encoding removelast concat] in Hs, Hw.
    split.
    + simpl. rewrite offsets_from_app. f_equal. exact Hs.
    + constructor; [done|]. exact Hw.
Qed.

Lemma concat_flat_encoding dt (ls : list (list datum)) :
  concat ((λ ra, cast np_astype (flat_dtype ra) dt (flat_array ra))
            <$> (encoding np_astype dt <$> ls))
    = flat_of np_astype dt (concat ls).
Proof.
  induction ls as [|l ls IH]; [done|]. csimpl.
  by rewrite IH, flat_of_app, cast_same.
Qed.

Lemma foldr_max_uint8 (l : list Z) :
  l ≠ [] → Forall (λ w, w = 8%Z) l → foldr Z.max 0%Z l = 8%Z.
Proof.
  induction l as [|w l IH]; [done|]. intros _ [-> Hall]%Forall_cons. simpl.
  destruct l as [|w' l]; [done|]. rewrite IH by done. done.
Qed.

(** X10: concatenating two or more containers that encode, in buffers of
    one dtype, sequences holding at most 255 values in all gives exactly the
    container that encodes the concatenated sequence: same offsets buffer,
    of 8 bits, and same values buffer, every offset within that width.
    These containers are those that the constructor builds from the
    sequences, with that dtype, when it does not raise. *)
Theorem X10_concat_of_sequences (dt : dtype) (ls : list (list datum)) :
  2 ≤ length ls →
  fits_uint8 (RaggedArray.buffer_len (concat ls)) →
  RaggedArray._concat_same_type np_astype (encoding np_astype dt <$> ls)
    = Ok (encoding np_astype dt (concat ls)) ∧
  Forall fits_uint8 (start_indices (encoding np_astype dt (concat ls))) ∧
  start_nbits (encoding np_astype dt (concat ls)) = 8%Z ∧
  (∀ l r, l ∈ ls → RaggedArray.init_seq np_astype l (Some dt) = Ok r →
          r = encoding np_astype dt l) ∧
  (Forall (encodable dt) ls →
   Forall (λ l, RaggedArray.init_seq np_astype l (Some dt)
                  = Ok (encoding np_astype dt l)) ls ∧
   RaggedArray.init_seq np_astype (concat ls) (Some dt)
     = Ok (encoding np_astype dt (concat ls))).
Proof.
  intros Hlen Hfits.
  assert (RaggedArray.start_indices_nbits (concat ls) = 8%Z) as Hnbits
    by by apply start_indices_nbits_uint8.
  split; [|split; [|split; [done|split]]].
  - unfold RaggedArray._concat_same_type.
    destruct ls as [|l ls]; [simpl in Hlen; lia|].
    destruct ls as [|l2 ls]; [simpl in Hlen; lia|].
    change (encoding np_astype dt <$> l :: l2 :: ls)
      with (encoding np_astype dt l :: (encoding np_astype dt <$> l2 :: ls)).
    cbv iota.
    change (encoding np_astype dt l :: (encoding np_astype dt <$> l2 :: ls))
      with (encoding np_astype dt <$> l :: l2 :: ls).
    assert (np_result_type (flat_dtype <$> (encoding np_astype dt <$> l :: l2 :: ls))
            = dt) as ->.
    { apply np_result_type_same; [done|].
      rewrite <- list_fmap_compose. by apply Forall_fmap, Forall_true. }
    change ([0] ++ np_cumsum ?x) with (0 :: cumsum_from 0 x).
    destruct (concat_sums_encoding dt (l :: l2 :: ls) 0) as [Hs Hw]; [done|].
    cbv zeta in Hs, Hw. rewrite Hs, concat_flat_encoding.
    rewrite (foldr_max_uint8 _); cycle 1.
    { done. }
    { by apply Forall_fmap. }
    change (removelast (encoding np_astype dt <$> l :: l2 :: ls))
      with (encoding np_astype dt l
              :: removelast (encoding np_astype dt <$> l2 :: ls)).
    cbv iota. cbn [fmap list_fmap].
    change (RaggedArray.init_dict ?x = ?y)
      with (RaggedArray.init_dict
              (RaggedArray.dict_of (offsets_from 0 (concat (l :: l2 :: ls)))
                 (flat_of np_astype dt (concat (l :: l2 :: ls))) 8 dt) = y).
    rewrite init_dict_dict_of.
    + unfold encoding. by rewrite Hnbits.
    + apply (InvariantA_encoding dt (concat (l :: l2 :: ls))).
  - simpl. eapply Forall_impl; [apply (offsets_from_bound _ 0)|].
    unfold fits_uint8 in *. simpl. intros; lia.
  - by intros l r _ [_ ->]%init_seq_Ok_inv.
  - intros Henc. split.
    + eapply Forall_impl; [exact Henc|]. intros l Hl.
      by apply (init_seq_spec l (Some dt)).
    + apply (init_seq_spec (concat ls) (Some dt)). simpl.
      destruct dt; [right|by left].
      apply Forall_concat. eapply Forall_impl; [exact Henc|].
      by intros l [?|?].
Qed.

(** ** Filling missing values *)

Lemma populate_values_datum np_coerce dt data : ∀ i next si fa,
  RaggedArray.populate_values np_astype np_coerce dt (RaggedArray.VDatum <$> data)
                              i next si fa
    = RaggedArray.populate np_astype dt data i next si fa.
Proof.
  induction data as [|d data IH]; intros i next si fa; csimpl; [done|].
  destruct (np_setslice np_astype dt fa next (next + len_or_0 d) d); csimpl; [|done].
  apply IH.
Qed.

Lemma init_values_datum np_coerce_dtype np_coerce data :
  RaggedArray.init_values np_astype np_coerce_dtype np_coerce
                          (RaggedArray.VDatum <$> data)
    = RaggedArray.init_seq np_astype data None.
Proof.
  unfold RaggedArray.init_values, RaggedArray.init_seq, RaggedArray.buffer_len,
    RaggedArray.start_indices_nbits, RaggedArray.buffer_len.
  rewrite length_fmap, <- list_fmap_compose.
  assert (RaggedArray.infer_dtype_values np_coerce_dtype (RaggedArray.VDatum <$> data)
          = RaggedArray.infer_dtype data) as ->.
  { unfold RaggedArray.infer_dtype_values, RaggedArray.infer_dtype,
      RaggedArray.non_missing_dtypes_values, RaggedArray.non_missing_dtypes.
    assert (∀ l, omap (λ v, match v with
                             | RaggedArray.VDatum (Arr dt _) => Some dt
                             | RaggedArray.VDatum _ => None
                             | RaggedArray.VRagged r => Some (np_coerce_dtype r)
                             end) (RaggedArray.VDatum <$> l)
                 = omap (λ v, match v with Arr dt _ => Some dt | _ => None end) l)
      as ->; [|done].
    induction l as [|d l IH]; csimpl; [done|]. rewrite IH. by destruct d. }
  by rewrite populate_values_datum.
Qed.

Lemma np_where_elem (m : list bool) j :
  j ∈ RaggedArray.np_where m ↔ m !! j = Some true.
Proof.
  unfold RaggedArray.np_where. rewrite list_elem_of_fmap. split.
  - intros ([i b] & -> & [Hb Hin]%list_elem_of_filter). simpl in *. subst b.
    apply list_elem_of_lookup in Hin as [k Hk].
    apply lookup_zip_with_Some in Hk as (x & y & [= <- <-] & Hx & Hy).
    apply lookup_seq in Hx as [-> _]. done.
  - intros Hj. exists (j, true). split; [done|].
    apply list_elem_of_filter. split; [done|].
    apply list_elem_of_lookup. exists j.
    apply lookup_zip_with_Some. exists j, true. split; [done|]. split; [|done].
    apply lookup_seq. split; [done|]. by eapply lookup_lt_Some.
Qed.

Lemma foldl_insert_lookup {A} (x : A) (inds : list nat) : ∀ (l : list A) j,
  foldl (λ l ind, <[ind := x]> l) l inds !! j
    = if decide (j ∈ inds) then (λ _, x) <$> l !! j else l !! j.
Proof.
  induction inds as [|i inds IH]; intros l j.
  - done.
  - simpl. rewrite IH.
    assert (j ∈ i :: inds ↔ i = j ∨ j ∈ inds) as Hcons
      by (rewrite elem_of_cons; intuition congruence).
    destruct (decide (i = j)) as [->|Hne].
    + rewrite (decide_True (P := j ∈ j :: inds)) by (apply Hcons; by left).
      destruct (decide (j < length l)) as [Hlt|Hge].
      * rewrite list_lookup_insert_eq by done.
        destruct (l !! j) eqn:Hl; [by case_decide|].
        apply lookup_ge_None in Hl. lia.
      * rewrite list_insert_ge by lia. case_decide; [done|].
        rewrite lookup_ge_None_2 by lia. done.
    + rewrite list_lookup_insert_ne by done.
      destruct (decide (j ∈ inds)) as [Hin|Hnin].
      * by rewrite decide_True by (apply Hcons; by right).
      * rewrite decide_False; [done|]. rewrite Hcons. intuition congruence.
Qed.

Lemma existsb_isna c :
  existsb id (RaggedArray.isna c) = true ↔ NaN ∈ elements c.
Proof.
  rewrite isna_elements, existsb_exists. split.
  - intros (b & Hb & Hid). unfold id in Hid. subst b.
    apply list_elem_of_In, list_elem_of_fmap in Hb as (d & Hd & Hin).
    symmetry in Hd. apply bool_decide_eq_true in Hd. by subst d.
  - intros Hin. exists true. split; [|done].
    apply list_elem_of_In, list_elem_of_fmap. exists NaN. split; [|done].
    by rewrite bool_decide_eq_true_2.
Qed.

(** The list [new_values] that [fillna] builds for one value. *)
Lemma fillna_new_values_datum c v :
  v ≠ PyNone → NaN ∈ elements c →
  RaggedArray.fillna_new_values np_astype c (RaggedArray.VDatum v)
    = Ok (Some (RaggedArray.VDatum
                  <$> ((λ d, if decide (d = NaN) then v else d) <$> elements c))).
Proof.
  intros Hv Hnan. unfold RaggedArray.fillna_new_values.
  assert (match RaggedArray.VDatum v with
          | RaggedArray.VDatum PyNone => true | _ => false end = false) as ->
    by by destruct v.
  rewrite bind_Ok_l. apply existsb_isna in Hnan. rewrite Hnan.
  rewrite to_list_elements. simpl. do 2 f_equal.
  apply list_eq. intros j. rewrite foldl_insert_lookup.
  rewrite !list_lookup_fmap.
  destruct (elements c !! j) as [d|] eqn:Hd; simpl.
  - case_decide as Hj.
    + apply np_where_elem in Hj. rewrite isna_elements in Hj.
      rewrite list_lookup_fmap, Hd in Hj. simpl in Hj.
      injection Hj as ->%bool_decide_eq_true. by rewrite decide_True.
    + case_decide as Hd'; [|done]. destruct Hj. apply np_where_elem.
      rewrite isna_elements, list_lookup_fmap, Hd. simpl.
      by rewrite bool_decide_eq_true_2.
  - by case_decide.
Qed.

(** X9: [fillna(value)] with an array (or nan) as value.  With neither
    value nor method the call is refused.  On a container without missing
    position the result is a copy with the same contents and the value is
    not used.  Otherwise every position that materialised as nan receives
    the value, every other position keeps its element, and the list so
    filled goes through the sequence constructor, which infers its dtype
    [dt]: the result materialises to the filled list, its arrays converted
    to [dt] (a zero-length array, as value or as element, reading back as
    missing); when a missing entry remains (the value is nan) and [dt] is
    int64, the call raises. *)
Theorem X9_fillna_one_value np_coerce_dtype np_coerce (c : RaggedArray) (v : datum) :
  let fillna := RaggedArray.fillna np_astype np_coerce_dtype np_coerce in
  let filled := (λ d, if decide (d = NaN) then v else d) <$> elements c in
  let dt := RaggedArray.infer_dtype filled in
  fillna c (RaggedArray.VDatum PyNone) = Raise ValueError_fillna_kwargs ∧
  (v ≠ PyNone → InvariantA c →
   (NaN ∉ elements c → fillna c (RaggedArray.VDatum v) = Ok c) ∧
   (NaN ∈ elements c →
    (encodable dt filled →
     ∃ r, fillna c (RaggedArray.VDatum v) = Ok r ∧
          RaggedArray.to_list r = Ok (norm ∘ recast np_astype dt <$> filled) ∧
          (has_dtype (flat_dtype c) v →
           RaggedArray.to_list r = Ok (norm <$> filled))) ∧
    (¬ encodable dt filled →
     fillna c (RaggedArray.VDatum v) = Raise ValueError_nan_to_integer) ∧
    (missing v = false → encodable dt filled))).
Proof.
  intros fillna filled dt. split; [done|]. intros Hv Hinv. split.
  - intros Hnan. unfold fillna, RaggedArray.fillna, RaggedArray.fillna_new_values.
    assert (match RaggedArray.VDatum v with
            | RaggedArray.VDatum PyNone => true | _ => false end = false) as ->
      by by destruct v.
    rewrite bind_Ok_l.
    destruct (existsb id (RaggedArray.isna c)) eqn:Hany.
    + by apply existsb_isna in Hany.
    + simpl. by apply copy_Ok.
  - intros Hnan. unfold fillna, RaggedArray.fillna.
    rewrite fillna_new_values_datum by done. rewrite bind_Ok_l.
    fold filled. rewrite init_values_datum.
    assert (Forall (λ d, d ≠ PyNone) filled) as Hnone.
    { apply Forall_fmap. eapply Forall_impl; [apply elements_not_None|].
      intros d Hd. simpl. by case_decide. }
    split; [|split].
    + intros Henc. rewrite (init_seq_spec filled None) by done.
      change (default (RaggedArray.infer_dtype filled) None) with dt.
      eexists. split; [done|].
      assert (RaggedArray.to_list (encoding np_astype dt filled)
              = Ok (norm ∘ recast np_astype dt <$> filled)) as Hl
        by by rewrite to_list_elements, elements_encoding.
      split; [done|]. intros Hvdt. rewrite Hl. f_equal.
      assert (Forall (has_dtype (flat_dtype c)) filled) as Hall.
      { apply Forall_fmap. eapply Forall_impl; [apply elements_has_dtype|].
        intros d Hd. simpl. by case_decide. }
      destruct (infer_dtype_has_dtype (flat_dtype c) filled Hall)
        as [[Hdt _]|[Hdt Hmiss]].
      * rewrite list_fmap_compose. f_equal. apply fmap_recast_has_dtype.
        unfold dt. by rewrite Hdt.
      * rewrite list_fmap_compose. f_equal. unfold dt. rewrite Hdt.
        apply fmap_recast_has_dtype.
        eapply Forall_impl; [exact Hmiss|]. intros d Hd. by destruct d.
    + intros Hnot. by apply init_seq_nan_raises_None.
    + intros Hmiss. right. apply Forall_fmap.
      eapply Forall_impl; [apply elements_not_None|].
      intros d Hd. simpl. case_decide; [done|]. by destruct d.
Qed.

(** ** [fillna] with a container as value *)

(** X20: [fillna(value)] with a [RaggedArray] as value.  A value whose
    length differs from the container's is refused with the error that
    carries both lengths, whatever the container holds.  With a value of the
    same length, a container without missing position comes back as a copy
    with the same contents, the value being left unused. *)
Theorem X20_fillna_container_value np_coerce_dtype np_coerce (c value : RaggedArray) :
  (RaggedArray.__len__ value ≠ RaggedArray.__len__ c →
   RaggedArray.fillna np_astype np_coerce_dtype np_coerce c (RaggedArray.VRagged value)
     = Raise (ValueError_fill_length (RaggedArray.__len__ value)
                                     (RaggedArray.__len__ c))) ∧
  (RaggedArray.__len__ value = RaggedArray.__len__ c →
   InvariantA c → NaN ∉ elements c →
   RaggedArray.fillna np_astype np_coerce_dtype np_coerce c (RaggedArray.VRagged value)
     = Ok c).
Proof.
  unfold RaggedArray.fillna, RaggedArray.fillna_new_values. split.
  - intros Hlen.
    by destruct (Nat.eqb_spec (RaggedArray.__len__ value) (RaggedArray.__len__ c)).
  - intros Hlen Hinv Hnan. rewrite Hlen, Nat.eqb_refl. cbn [negb].
    assert (existsb id (RaggedArray.isna c) = false) as Hany.
    { destruct (existsb id (RaggedArray.isna c)) eqn:Hex; [|done].
      by apply existsb_isna in Hex. }
    unfold RaggedArray.getitem_mask. rewrite mask_loop_general.
    + assert (select_true (drop 0 (elements value)) (RaggedArray.isna c) = []) as ->.
      { apply elem_of_nil_inv. intros d Hd. unfold select_true in Hd.
        apply list_elem_of_fmap in Hd as ([x b] & _ & [Hb Hin]%list_elem_of_filter).
        simpl in Hb. subst b. apply elem_of_zip_r in Hin.
        assert (existsb id (RaggedArray.isna c) = true); [|congruence].
        apply existsb_exists. exists true. split; [|done].
        by apply list_elem_of_In. }
      rewrite bind_Ok_l, (init_seq_spec [] (Some (flat_dtype value)))
        by (right; constructor).
      simpl. rewrite Hany. simpl. by apply copy_Ok.
    + intros k Hk. exfalso.
      assert (existsb id (RaggedArray.isna c) = true); [|congruence].
      apply existsb_exists. exists true. split; [|done].
      apply list_elem_of_In. by eapply list_elem_of_lookup_2.
Qed.

(** ** Element identity: ordering, equality and hash *)






(** ** Factorisation and uniqueness *)

Lemma len_or_0_norm_recast dt d :
  len_or_0 (norm (recast np_astype dt d)) = len_or_0 d.
Proof.
  destruct d as [src a| |]; simpl; [|done..].
  pose proof (length_cast src dt a) as Hlen.
  unfold len_or_0. destruct (cast np_astype src dt a) eqn:Hc; simpl in *; lia.
Qed.

Lemma values_in_norm_recast dt d :
  values_in np_astype dt (norm (recast np_astype dt d)) = values_in np_astype dt d.
Proof.
  destruct d as [src a| |]; simpl; [|done..].
  destruct (cast np_astype src dt a) eqn:Hc; simpl; [done|]. apply cast_same.
Qed.

(** Encoding what an encoding materialises to gives that encoding again. *)
Lemma encoding_norm_recast dt data :
  encoding np_astype dt (norm ∘ recast np_astype dt <$> data)
    = encoding np_astype dt data.
Proof.
  assert (len_or_0 <$> (norm ∘ recast np_astype dt <$> data) = len_or_0 <$> data)
    as Hlens.
  { rewrite <- list_fmap_compose. apply list_fmap_ext. intros _ d _. simpl.
    apply len_or_0_norm_recast. }
  unfold encoding. f_equal.
  - clear Hlens. generalize 0.
    induction data as [|d data IH]; intros n; csimpl; [done|].
    by rewrite IH, len_or_0_norm_recast.
  - unfold flat_of. rewrite <- list_fmap_compose. f_equal.
    apply list_fmap_ext. intros _ d _. simpl. apply values_in_norm_recast.
  - unfold RaggedArray.start_indices_nbits, RaggedArray.buffer_len. by rewrite Hlens.
Qed.

(** X17: the values handed to [pandas.factorize] and to argsort are one
    entry per element with nan as the missing-value marker.
    [_from_factorized] on them encodes the elements again in a buffer of the
    dtype of the container: on a container of floats, or without missing
    element, it rebuilds a container with the same elements (a zero-length
    array read as missing), and for a container built from a sequence it
    rebuilds that very container; on a container of integers with a missing
    element it raises. *)
Theorem X17_factorize_round_trip (c : RaggedArray) :
  ∃ arr,
    RaggedArray._values_for_factorize c = Ok (arr, NaN) ∧
    RaggedArray._values_for_argsort c = Ok arr ∧
    length arr = RaggedArray.__len__ c ∧
    (encodable (flat_dtype c) (elements c) →
     ∃ r, RaggedArray._from_factorized np_astype arr c = Ok r ∧
          RaggedArray.to_list r = Ok (norm <$> elements c) ∧
          (∀ data dtype, RaggedArray.init_seq np_astype data dtype = Ok c → r = c)) ∧
    (¬ encodable (flat_dtype c) (elements c) →
     RaggedArray._from_factorized np_astype arr c = Raise ValueError_nan_to_integer).
Proof.
  exists (RaggedArray.ragged_or_nan <$> elements c).
  unfold RaggedArray._values_for_factorize, RaggedArray._values_for_argsort,
    RaggedArray._from_factorized.
  rewrite as_ragged_element_array_spec, fmap_array_or_nan_ragged_or_nan.
  destruct (reencode_elements c (elements c)) as [Hok Hraise]; [done|].
  split; [done|]. split; [done|]. split; [by rewrite length_fmap, length_elements|].
  split; [|done].
  intros Henc. destruct (Hok Henc) as (-> & _ & Hl).
  eexists. split; [done|]. split; [done|].
  intros data dtype [_ ->]%init_seq_Ok_inv. simpl.
  by rewrite elements_encoding, encoding_norm_recast.
Qed.

Lemma first_occurrences_after_NoDup_id before l :
  NoDup l → (∀ x, x ∈ l → x ∉ before) → first_occurrences_after before l = l.
Proof.
  intros Hl. revert before. induction Hl as [|x l Hx _ IH]; intros before Hb; simpl; [done|].
  rewrite decide_False by (apply Hb; left). f_equal. apply IH.
  intros y Hy [->|Hin]%elem_of_cons; [done|].
  by apply (Hb y); [right|].
Qed.

Lemma first_occurrences_NoDup_id l : NoDup l → first_occurrences l = l.
Proof.
  intros Hl. apply first_occurrences_after_NoDup_id; [done|].
  intros x _. apply not_elem_of_nil.
Qed.

Lemma flat_of_nan_free dt l :
  Forall (λ d, has_dtype dt d ∧ nan_free d) l → VNaN ∉ flat_of np_astype dt l.
Proof.
  unfold flat_of. induction 1 as [|d l [Hdt Hnan] _ IH]; csimpl.
  - apply not_elem_of_nil.
  - rewrite not_elem_of_app. split; [|done].
    destruct d as [src a| |]; simpl in *; [|apply not_elem_of_nil..].
    subst src. by rewrite cast_same.
Qed.

(** What [unique] returns on a container whose buffer holds no nan: the
    encoding of the first occurrences, which materialises to them and holds
    no nan either. *)
Lemma unique_Ok_inv c u :
  VNaN ∉ flat_array c → RaggedArray.unique np_astype c = Ok u →
  let survivors := first_occurrences (elements c) in
  RaggedArray.init_seq np_astype survivors None = Ok u ∧
  elements u = norm <$> survivors ∧
  (VNaN ∉ flat_array u) ∧
  (flat_dtype c = float64 → flat_dtype u = float64).
Proof.
  intros Hnan Hu survivors. rewrite unique_spec in Hu by done. fold survivors in Hu.
  split; [done|].
  apply init_seq_Ok_inv in Hu as [_ ->]. simpl.
  assert (Forall (λ d, has_dtype (flat_dtype c) d ∧ nan_free d) survivors) as Hall
    by by apply first_occurrences_Forall, elements_nan_free.
  assert (Forall (has_dtype (flat_dtype c)) survivors) as Hdt
    by (eapply Forall_impl; [exact Hall|]; by intros d [? _]).
  assert (Forall (λ d, has_dtype (RaggedArray.infer_dtype survivors) d ∧ nan_free d)
                 survivors) as Hall'.
  { destruct (infer_dtype_has_dtype _ _ Hdt) as [[-> _]|[-> Hmiss]]; [done|].
    eapply Forall_impl; [exact Hmiss|]. intros d Hd.
    destruct d; [done|split; [done|apply not_elem_of_nil]..]. }
  split; [|split].
  - apply elements_encoding_has_dtype.
    eapply Forall_impl; [exact Hall'|]. by intros d [? _].
  - by apply flat_of_nan_free.
  - intros Hf. destruct (infer_dtype_has_dtype _ _ Hdt) as [[-> _]|[-> _]]; done.
Qed.

Lemma unique_fixed_point c u :
  VNaN ∉ flat_array c → Forall (λ d, ¬ zero_length d) (elements c) →
  RaggedArray.unique np_astype c = Ok u → RaggedArray.unique np_astype u = Ok u.
Proof.
  intros Hnan Hnz Hu.
  destruct (unique_Ok_inv c u Hnan Hu) as (Hseq & Hel & Hnan' & _).
  rewrite unique_spec, Hel by done.
  rewrite fmap_norm_id.
  - rewrite first_occurrences_NoDup_id; [done|].
    apply first_occurrences_after_NoDup.
  - apply first_occurrences_Forall.
    pose proof (elements_not_None c) as Hnone.
    apply Forall_forall. intros d Hd. split.
    + by eapply Forall_forall in Hnz.
    + by eapply Forall_forall in Hnone.
Qed.

Lemma norm_not_zero_length (l : list datum) :
  Forall (λ d, ¬ zero_length d) (norm <$> l).
Proof.
  apply Forall_fmap, Forall_true. intros d. destruct d as [? [|]| |]; simpl; by intros [].
Qed.

(** X18: with [pandas.unique] taken as the deduplication by first
    occurrence, on a container whose buffer holds no nan: [unique] is
    idempotent when no element of the container is a zero-length array; in
    any case, when a second application of [unique] returns, what it
    returns is a fixed point of [unique], and on a container of floats it
    does return. *)
Theorem X18_unique_idempotent (c u : RaggedArray) :
  VNaN ∉ flat_array c →
  RaggedArray.unique np_astype c = Ok u →
  (Forall (λ d, ¬ zero_length d) (elements c) → RaggedArray.unique np_astype u = Ok u) ∧
  (∀ u', RaggedArray.unique np_astype u = Ok u' →
         RaggedArray.unique np_astype u' = Ok u') ∧
  (flat_dtype c = float64 → ∃ u', RaggedArray.unique np_astype u = Ok u').
Proof.
  intros Hnan Hu.
  destruct (unique_Ok_inv c u Hnan Hu) as (Hseq & Hel & Hnan' & Hfloat).
  split; [|split].
  - intros Hnz. by apply (unique_fixed_point c u).
  - intros u' Hu'. eapply unique_fixed_point; [exact Hnan'| |exact Hu'].
    rewrite Hel. apply norm_not_zero_length.
  - intros Hf. specialize (Hfloat Hf).
    rewrite unique_spec by done.
    destruct (from_sequence_elements (flat_dtype u) (first_occurrences (elements u)))
      as [Hok _].
    + apply first_occurrences_Forall, elements_has_dtype.
    + apply first_occurrences_Forall, elements_not_None.
    + destruct Hok as (r & Hr & _); [by left|]. by exists r.
Qed.

End proofs.

(** * C3: the bounds invariant *)

(** C3: every container reachable through the public operations
    (construction from a sequence or from a raw offsets/values pair,
    duplication, copy, getitem by slice, mask or index list, take, concat,
    fillna, shift, unique) satisfies Invariant A: each of its offsets is at
    most the length of its values buffer. *)
Theorem C3_bounds_invariant (r : RaggedArray) : reachable r → InvariantA r.
Proof.
  induction 1 as [np data dtype r Hr|raw r Hr|r _ IH|r deep r' _ _ Hr
                  |np r item r' _ _ Hr
                  |np r indices allow_fill fill_value r' _ _ Hr|np to_concat r' _ _ Hr
                  |np npd npc r value r' _ _ Hr|np r periods fill_value r' _ _ Hr
                  |np r r' _ _ Hr].
  - by eapply InvariantA_init_seq.
  - by eapply init_dict_InvariantA.
  - by destruct r.
  - by eapply init_dict_InvariantA.
  - destruct item as [i|s|m|l]; unfold RaggedArray.__getitem__ in Hr.
    + by destruct (RaggedArray.getitem_int r i).
    + destruct (RaggedArray.getitem_slice np r s) as [x|] eqn:Hx; simpl in Hr; [|done].
      injection Hr as ->. by eapply getitem_slice_InvariantA.
    + destruct (RaggedArray.getitem_mask np r m) as [x|] eqn:Hx; simpl in Hr; [|done].
      injection Hr as ->. by eapply getitem_mask_InvariantA.
    + destruct (RaggedArray.take np r l false PyNone) as [x|] eqn:Hx; simpl in Hr; [|done].
      injection Hr as ->. by eapply take_InvariantA.
  - by eapply take_InvariantA.
  - by eapply concat_InvariantA.
  - by eapply fillna_InvariantA.
  - by eapply shift_InvariantA.
  - unfold RaggedArray.unique in Hr. apply bind_Ok in Hr as (arr & _ & Hr).
    by eapply InvariantA_init_seq.
Qed.

Lemma C3_bounds_invariant_witness :
  InvariantA (mkRaggedArray [2; 1; 3] [Num 1; Num 2; Num 3] 8 float64).
Proof.
  apply C3_bounds_invariant.
  apply (reach_raw_pair (RaggedArray.dict_of [2; 1; 3] [Num 1; Num 2; Num 3] 8 float64)).
  reflexivity.
Defined.


(** * C1: round trip *)


(** * C4: concatenation and the width of the offsets *)

(** C4, at the failing input: a holds one element of 200 values, b one
    element of 60 values and c two elements of one value, each built from a
    sequence and so with offsets of 8 bits.  [concat([b, c])] has the offsets
    [0, 60, 61], still of 8 bits; adding 200 to them in
    [concat([a, concat([b, c])])] wraps around and gives the offsets
    [0, 200, 4, 5], whereas [concat([a, b, c])] adds 260 to the offsets of
    c in 16 bits and gives [0, 200, 260, 261].  The two results differ at
    position 1, a zero-length array in the first and the element of b in the
    second. *)
Theorem C4_concat_offsets_wrap :
  let a := mkRaggedArray [0] (replicate 200 (Num 1)) 8 float64 in
  let b := mkRaggedArray [0] (replicate 60 (Num 1)) 8 float64 in
  let c := mkRaggedArray [0; 1] [Num 1; Num 1] 8 float64 in
  ∀ np_astype,
    RaggedArray.init_seq np_astype [Arr float64 (replicate 200 (Num 1))] None = Ok a ∧
    RaggedArray.init_seq np_astype [Arr float64 (replicate 60 (Num 1))] None = Ok b ∧
    RaggedArray.init_seq np_astype [Arr float64 [Num 1]; Arr float64 [Num 1]] None = Ok c ∧
    ∃ bc a_bc abc,
      RaggedArray._concat_same_type np_astype [b; c] = Ok bc ∧
      RaggedArray._concat_same_type np_astype [a; bc] = Ok a_bc ∧
      RaggedArray._concat_same_type np_astype [a; b; c] = Ok abc ∧
      start_indices bc = [0; 60; 61] ∧ start_nbits bc = 8%Z ∧
      start_indices a_bc = [0; 200; 4; 5] ∧
      start_indices abc = [0; 200; 260; 261] ∧
      RaggedArray.getitem_int a_bc 1 = Ok (Arr float64 []) ∧
      RaggedArray.getitem_int abc 1 = Ok (Arr float64 (replicate 60 (Num 1))).
Proof.
  intros a b c np_astype.
  split; [by vm_compute|]. split; [by vm_compute|]. split; [by vm_compute|].
  eexists _, _, _.
  split; [by vm_compute|]. split; [by vm_compute|]. split; [by vm_compute|].
  by vm_compute.
Qed.

(** * C10: selection by a boolean mask *)



(** * C7: take with fill *)



(** * C9: unique *)



(** * C6: fillna with a container as value *)

(** C6, failing input: [c] has missing positions 1 and 2 and [value] holds
    [[7]], [[8]], [[9]], so that position 1 should be filled with [[8]] and
    position 2 with [[9]].  Every missing position of [new_values] receives
    the whole container [value[mask]], here the container of [[8]] and
    [[9]], not the element of [value] at that position; whatever numpy makes
    of such an entry, the call raises or returns a container whose position
    1 holds an array of two values. *)
Theorem C6_fillna_container_value_not_elementwise :
  let c := mkRaggedArray [0; 2; 2] [Num 1; Num 2] 8 float64 in
  let value := mkRaggedArray [0; 1; 2] [Num 7; Num 8; Num 9] 8 float64 in
  let masked := mkRaggedArray [0; 1] [Num 8; Num 9] 8 float64 in
  RaggedArray.isna c = [false; true; true] ∧
  RaggedArray.getitem_int value 1 = Ok (Arr float64 [Num 8]) ∧
  ∀ np_astype,
    RaggedArray.init_seq np_astype [Arr float64 [Num 1; Num 2]; NaN; NaN] None = Ok c ∧
    RaggedArray.init_seq np_astype
      [Arr float64 [Num 7]; Arr float64 [Num 8]; Arr float64 [Num 9]] None = Ok value ∧
    RaggedArray.fillna_new_values np_astype c (RaggedArray.VRagged value)
      = Ok (Some [RaggedArray.VDatum (Arr float64 [Num 1; Num 2]);
                  RaggedArray.VRagged masked; RaggedArray.VRagged masked]) ∧
    ∀ np_coerce_dtype np_coerce,
      match RaggedArray.fillna np_astype np_coerce_dtype np_coerce c
                               (RaggedArray.VRagged value) with
      | Ok r => ∃ dt x y, RaggedArray.getitem_int r 1 = Ok (Arr dt [x; y])
      | Raise _ => True
      end.
Proof.
  intros c value masked. split; [done|]. split; [done|].
  intros np_astype. split; [done|]. split; [done|]. split; [done|].
  intros np_coerce_dtype np_coerce. unfold RaggedArray.fillna.
  change (RaggedArray.fillna_new_values np_astype c (RaggedArray.VRagged value))
    with (Ok (Some [RaggedArray.VDatum (Arr float64 [Num 1; Num 2]);
                    RaggedArray.VRagged masked; RaggedArray.VRagged masked])).
  rewrite bind_Ok_l. unfold RaggedArray.init_values.
  set (dt := RaggedArray.infer_dtype_values _ _).
  cbn -[dt].
  assert (length (cast np_astype float64 dt [Num 1; Num 2]) = 2) as Hlen
    by by rewrite length_cast.
  destruct (cast np_astype float64 dt [Num 1; Num 2]) as [|u [|v [|? ?]]];
    try done. clear Hlen. cbn -[dt].
  destruct (np_coerce dt masked 2) as [[|x [|y [|z a]]]|e]; cbn -[dt]; try done.
  by exists dt, x, y.
Qed.



Lemma X4_sorted_offsets_element_length_witness :
  let c := mkRaggedArray [0; 2; 2] [Num 1; Num 2; Num 3] 8 int64 in
  RaggedArray.getitem_int c 1 = Ok NaN ∧
  RaggedArray.getitem_int c 2 = Ok (Arr int64 [Num 3]).
Proof.
  intros c. split.
  - refine (proj1 (proj2 (X4_sorted_offsets_element_length c 1 _ _ _))).
    + solve_InvariantA.
    + repeat (constructor; [|repeat constructor; lia]). constructor.
    + vm_compute. lia.
  - refine (proj1 (proj2 (X4_sorted_offsets_element_length c 2 _ _ _))).
    + solve_InvariantA.
    + repeat (constructor; [|repeat constructor; lia]). constructor.
    + vm_compute. lia.
Defined.

Lemma X13_offsets_width_witness :
  let data := [Arr int64 (replicate 200 (Num 7)); PyNone;
               Arr int64 (replicate 100 (Num 8))] in
  RaggedArray.start_indices_nbits data = 16%Z ∧
  ∀ np_astype r,
    RaggedArray.init_seq np_astype data (Some float64) = Ok r →
    start_nbits r = 16%Z ∧
    Forall (λ s, (Z.of_nat s ≤ 65535)%Z) (start_indices r).
Proof.
  intros data. split; [reflexivity|]. intros np_astype.
  refine (proj2 (proj2 (proj2 (X13_offsets_width np_astype data (Some float64))) _)).
  vm_compute. reflexivity.
Defined.

Lemma X14_copy_shallow_and_deep_witness :
  let h := [Heap.UIntArray 8 [0; 2];
            Heap.ValueArray int64 [Num 1; Num 2; Num 3]] in
  let self := Heap.mkObject 0 1 in
  Heap.copy self false h = Ok (self, h) ∧
  ∃ o' h', Heap.copy self true h = Ok (o', h') ∧ ¬ Heap.shares_buffer self o'.
Proof.
  intros h self.
  destruct (X14_copy_shallow_and_deep h self
              (mkRaggedArray [0; 2] [Num 1; Num 2; Num 3] 8 int64))
    as (Hshallow & o' & h' & Hdeep & _ & _ & _ & Hfresh).
  - reflexivity.
  - solve_InvariantA.
  - split; [exact Hshallow|]. exists o', h'. split; [exact Hdeep|exact Hfresh].
Defined.

Lemma X21_astype_ragged_shares_buffers_witness :
  let h := [Heap.UIntArray 8 [0; 2];
            Heap.ValueArray float64 [Num 1; Num 2; Num 3]] in
  let self := Heap.mkObject 0 1 in
  Heap.astype self true h = Ok (self, h) ∧
  Heap.astype self false h = Ok (self, h).
Proof.
  intros h self.
  split; apply (X21_astype_ragged_shares_buffers h self
                  (mkRaggedArray [0; 2] [Num 1; Num 2; Num 3] 8 float64));
    (reflexivity || solve_InvariantA).
Defined.

Lemma X16_offending_offsets_listed_witness :
  RaggedArray.init_dict (RaggedArray.dict_of [0; 7; 2; 5] [Num 1; Num 2] 8 int64)
    = Raise (ValueError_invalid_start 2 [7; 5]).
Proof.
  apply (X16_offending_offsets_listed [0; 7; 2; 5] [Num 1; Num 2] 8 int64).
  - simpl. lia.
  - exists 7. split; [by right; left|]. simpl. lia.
Defined.

Lemma X11_concat_materialises_append_witness :
  let a := mkRaggedArray [0; 2] [Num 1; Num 2; Num 3] 8 int64 in
  let b := mkRaggedArray [0; 1; 1] [Num 4; Num 5] 8 int64 in
  InvariantA a ∧
  ∀ np_astype,
    ∃ r, RaggedArray._concat_same_type np_astype [a; b] = Ok r ∧
         RaggedArray.to_list r
           = Ok [Arr int64 [Num 1; Num 2]; Arr int64 [Num 3]; Arr int64 [Num 4];
                 NaN; Arr int64 [Num 5]].
Proof.
  intros a b. split; [solve_InvariantA|]. intros np_astype.
  destruct (X11_concat_materialises_append np_astype a b)
    as (r & Hr & _ & _ & _ & _ & Hl).
  - solve_InvariantA.
  - solve_InvariantA.
  - reflexivity.
  - vm_compute. discriminate.
  - exists r. split; [exact Hr|]. by apply Hl.
Defined.

Lemma X10_concat_of_sequences_witness :
  let l1 := [Arr float64 [Num 1; Num 2]; PyNone] in
  let l2 := [Arr float64 [Num 3]] in
  2 ≤ length [l1; []; l2] ∧
  ∀ np_astype,
    ∃ a b c r,
      RaggedArray.init_seq np_astype l1 (Some float64) = Ok a ∧
      RaggedArray.init_seq np_astype [] (Some float64) = Ok b ∧
      RaggedArray.init_seq np_astype l2 (Some float64) = Ok c ∧
      RaggedArray._concat_same_type np_astype [a; b; c] = Ok r ∧
      RaggedArray.init_seq np_astype (l1 ++ l2) (Some float64) = Ok r.
Proof.
  intros l1 l2. split; [simpl; lia|]. intros np_astype.
  destruct (X10_concat_of_sequences np_astype float64 [l1; []; l2])
    as (Hcat & _ & _ & _ & Hseq).
  - simpl. lia.
  - vm_compute. discriminate.
  - destruct Hseq as [Hall Hjoin]; [repeat constructor; by left|].
    apply Forall_cons in Hall as [Ha Hall].
    apply Forall_cons in Hall as [Hb Hall].
    apply Forall_cons in Hall as [Hc _].
    eexists _, _, _, _.
    split; [exact Ha|]. split; [exact Hb|]. split; [exact Hc|].
    split; [exact Hcat|exact Hjoin].
Defined.


Lemma X18_unique_idempotent_witness :
  let c := mkRaggedArray [0; 2; 2; 3; 3] [Num 1; Num 2; Num 3; Num 1; Num 2] 8 float64 in
  let u := mkRaggedArray [0; 2; 2] [Num 1; Num 2; Num 3] 8 float64 in
  (VNaN ∉ flat_array c) ∧
  ∀ np_astype, RaggedArray.unique np_astype u = Ok u.
Proof.
  intros c u. split; [simpl; solve_not_elem|]. intros np_astype.
  apply (X18_unique_idempotent np_astype c u).
  - simpl. solve_not_elem.
  - vm_compute. reflexivity.
  - vm_compute. repeat (constructor; [tauto|]). constructor.
Defined.
